(** * Continuum model of pfsspec-stellar: masks, flux transform, fit loop

    A shallow embedding of [ContinuumModel]
    (python/pfs/ga/pfsspec/stellar/continuum/models/continuummodel.py).

    - numpy float64 arrays are [list float] (primitive binary64 floats, so
      comparisons with NaN are false as in numpy);
    - numpy boolean arrays are [list bool];
    - Python exceptions are the [Raise] constructor of [result];
    - array objects that are shared by reference live in a [store]. *)

From Stdlib Require Import PrimFloat.
From stdpp Require Import base option list sorting strings gmap.

Set Default Proof Using "Type".

(** ** Exceptions *)

Inductive exn : Type :=
  | IndexError
  | TypeError
  | ValueError.

Inductive result (A : Type) : Type :=
  | Ok (a : A)
  | Raise (e : exn).
Arguments Ok {A} a.
Arguments Raise {A} e.

(** Sequencing: an exception skips the rest. *)
Definition bind {A B : Type} (r : result A) (k : A -> result B) : result B :=
  match r with
  | Ok a => k a
  | Raise e => Raise e
  end.

Notation "'do' x <- r ; k" := (bind r (fun x => k))
  (at level 10, x pattern, r at level 100, k at level 200, only parsing).

(** ** numpy primitives on one-dimensional arrays *)

Module Np.

(** [a[0]]: IndexError on an empty array. *)
Definition first (a : list float) : result float :=
  match a with
  | [] => Raise IndexError
  | v :: _ => Ok v
  end.

(** [a[-1]]: IndexError on an empty array. *)
Definition last (a : list float) : result float :=
  match List.last (map Some a) None with
  | None => Raise IndexError
  | Some v => Ok v
  end.

(** [np.full(shape, v)]. *)
Definition full {A : Type} (n : nat) (v : A) : list A := replicate n v.

(** [a & b] on boolean arrays of one shape. *)
Fixpoint and_ (a b : list bool) : list bool :=
  match a, b with
  | x :: a', y :: b' => (x && y) :: and_ a' b'
  | _, _ => []
  end.

(** [a | b] on boolean arrays of one shape. *)
Fixpoint or_ (a b : list bool) : list bool :=
  match a, b with
  | x :: a', y :: b' => (x || y) :: or_ a' b'
  | _, _ => []
  end.

(** [m &= mask], in place: the operand must broadcast to the shape of
    [m], that is have the same length or length one; anything else is a
    ValueError and [m] keeps its shape in every case. *)
Definition iand (m mask : list bool) : result (list bool) :=
  if Nat.eqb (length mask) (length m) then Ok (and_ m mask)
  else match mask with
       | [b] => Ok (map (fun x => x && b) m)
       | _ => Raise ValueError
       end.

(** [a[m]] with a boolean index: the index must have the length of the
    array, IndexError otherwise. *)
Fixpoint select {A : Type} (a : list A) (m : list bool) : list A :=
  match a, m with
  | v :: a', b :: m' => if b then v :: select a' m' else select a' m'
  | _, _ => []
  end.

Definition index {A : Type} (a : list A) (m : list bool) : result (list A) :=
  if Nat.eqb (length m) (length a) then Ok (select a m) else Raise IndexError.

(** [m.sum()] on a boolean array. *)
Definition sum (m : list bool) : nat := length (filter (fun b => b = true) m).

End Np.

(** ** Wavelength ranges and masks *)

(** [dlambda] is a scalar or a pair; a scalar is used on both sides. *)
Inductive buffer : Type :=
  | Scalar (d : float)
  | Pair (d0 d1 : float).

Definition dlambda_pair (dlambda : buffer) : float * float :=
  match dlambda with
  | Scalar d => (d, d)
  | Pair d0 d1 => (d0, d1)
  end.

(** [ContinuumModel.lessthan]. *)
Definition lessthan (a b : float) (strict : bool) : bool :=
  if strict then PrimFloat.ltb a b else PrimFloat.leb a b.

(** [r[0] + dlambda[0] < wave[0] or r[1] - dlambda[1] > wave[-1]]. *)
Definition overflows (w0 w1 : float) (d : float * float) (r : float * float) : bool :=
  PrimFloat.ltb (r.1 + d.1) w0 || PrimFloat.ltb w1 (r.2 - d.2).

(** [lessthan(lo + d0, wave, strict) & lessthan(wave, hi - d1, strict)]. *)
Definition range_mask (wave : list float) (d : float * float) (strict : bool)
    (r : float * float) : list bool :=
  Np.and_ (map (fun w => lessthan (r.1 + d.1) w strict) wave)
          (map (fun w => lessthan w (r.2 - d.2) strict) wave).

(** The overflow test of one range. Python's [or] reads [wave[-1]] only
    when the first comparison is false. *)
Definition overflow_test (wave : list float) (d : float * float)
    (r : float * float) : result bool :=
  do w0 <- Np.first wave;
  if PrimFloat.ltb (r.1 + d.1) w0 then Ok true
  else do w1 <- Np.last wave; Ok (PrimFloat.ltb w1 (r.2 - d.2)).

(** The loop of [ranges_to_mask] over [enumerate(ranges)], from index [i],
    with the accumulators [m] and [overflow]. An overflowing range is
    recorded, and skipped ([continue]) under [omit_overflow]. *)
Fixpoint ranges_to_mask_loop (wave : list float) (d : float * float)
    (strict omit_overflow : bool) (i : nat) (ranges : list (float * float))
    (m : list bool) (overflow : list nat) : result (list bool * list nat) :=
  match ranges with
  | [] => Ok (m, overflow)
  | r :: rest =>
      do ov <- overflow_test wave d r;
      let overflow := if ov then overflow ++ [i] else overflow in
      if ov && omit_overflow
      then ranges_to_mask_loop wave d strict omit_overflow (S i) rest m overflow
      else ranges_to_mask_loop wave d strict omit_overflow (S i) rest
             (Np.or_ m (range_mask wave d strict r)) overflow
  end.

(** [ContinuumModel.ranges_to_mask]. [ranges] is a list of [(lo, hi)]
    pairs, [mask] the optional input mask. *)
Definition ranges_to_mask (wave : list float) (ranges : list (float * float))
    (mask : option (list bool)) (dlambda : buffer) (strict omit_overflow : bool)
    : result (list bool * list nat) :=
  let d := dlambda_pair dlambda in
  do (m, overflow) <-
    ranges_to_mask_loop wave d strict omit_overflow 0 ranges
      (Np.full (length wave) false) [];
  match mask with
  | None => Ok (m, overflow)
  | Some mask => do m <- Np.iand m mask; Ok (m, overflow)
  end.

(** [limits[i]] with [None] replaced: [wave[0]] for a lower limit and
    [wave[-1]] for an upper one. *)
Definition lower_limit (wave : list float) (l : option float) : result float :=
  match l with Some v => Ok v | None => Np.first wave end.

Definition upper_limit (wave : list float) (l : option float) : result float :=
  match l with Some v => Ok v | None => Np.last wave end.

(** [[w[0], w[-1]]] for [w = wave[m]], or [[nan, nan]] when [w.size] is 0. *)
Definition actual_range (w : list float) : float * float :=
  match w with
  | [] => (nan, nan)
  | v :: _ => (v, List.last w v)
  end.

(** The loop of [limits_to_masks] over [range(len(limits) - 1)], from
    index [i], with the accumulators [masks], [ranges] and [overflow]. *)
Fixpoint limits_to_masks_loop (wave : list float) (mask : option (list bool))
    (d : float * float) (strict omit_overflow : bool) (i : nat)
    (limits : list (option float))
    (masks : list (list bool)) (ranges : list (float * float))
    (overflow : list nat)
    : result (list (list bool) * list (float * float) * list nat) :=
  match limits with
  | l0 :: ((l1 :: _) as rest) =>
      do l0 <- lower_limit wave l0;
      do l1 <- upper_limit wave l1;
      do ov <- overflow_test wave d (l0, l1);
      let overflow := if ov then overflow ++ [i] else overflow in
      if ov && omit_overflow
      then limits_to_masks_loop wave mask d strict omit_overflow (S i) rest
             masks ranges overflow
      else
        let m := range_mask wave d strict (l0, l1) in
        do m <- match mask with
                | None => Ok m
                | Some mask => Np.iand m mask
                end;
        do w <- Np.index wave m;
        limits_to_masks_loop wave mask d strict omit_overflow (S i) rest
          (masks ++ [m]) (ranges ++ [actual_range w]) overflow
  | _ => Ok (masks, ranges, overflow)
  end.

(** [ContinuumModel.limits_to_masks]. *)
Definition limits_to_masks (wave : list float) (limits : list (option float))
    (mask : option (list bool)) (dlambda : buffer) (strict omit_overflow : bool)
    : result (list (list bool) * list (float * float) * list nat) :=
  limits_to_masks_loop wave mask (dlambda_pair dlambda) strict omit_overflow
    0 limits [] [] [].

(** [ContinuumModel.limits_to_ranges]. *)
Fixpoint limits_to_ranges {A : Type} (limits : list A) : list (A * A) :=
  match limits with
  | l0 :: ((l1 :: _) as rest) => (l0, l1) :: limits_to_ranges rest
  | _ => []
  end.

(** ** The model object *)

(** The attributes of a [ContinuumModel] that the methods below read or
    write. [Finder] and [Trace] are the types of the collaborators. *)
Record ContinuumModel {Finder Trace : Type} : Type := mkContinuumModel {
  version : Z;
  trace : option Trace;
  continuum_finder : option Finder;
  max_iter : Z;
  use_log_flux : bool;
  include_ranges : option (list (float * float));
  include_mask : option (list bool);
  include_overflow : option (list nat);
  exclude_ranges : option (list (float * float));
  exclude_mask : option (list bool);
  exclude_overflow : option (list nat);
  wave : option (list float);
}.
Arguments ContinuumModel : clear implicits.
Arguments mkContinuumModel {Finder Trace}.

Section Model.
Context {Finder Trace : Type}.
Abbreviation Model := (ContinuumModel Finder Trace).

(** [ContinuumModel.__init__] without [orig]. *)
Definition init (continuum_finder : option Finder) (max_iter : option Z)
    (trace : option Trace) : Model :=
  {| version := 1;
     trace := trace;
     continuum_finder := continuum_finder;
     max_iter := default 5%Z max_iter;
     use_log_flux := false;
     include_ranges := None; include_mask := None; include_overflow := None;
     exclude_ranges := None; exclude_mask := None; exclude_overflow := None;
     wave := None |}.

(** Attribute assignments. *)
Definition set_wave (self : Model) (w : list float) : Model :=
  mkContinuumModel (version self) (trace self) (continuum_finder self)
    (max_iter self) (use_log_flux self)
    (include_ranges self) (include_mask self) (include_overflow self)
    (exclude_ranges self) (exclude_mask self) (exclude_overflow self)
    (Some w).

Definition set_include (self : Model) (m : list bool) (ov : list nat) : Model :=
  mkContinuumModel (version self) (trace self) (continuum_finder self)
    (max_iter self) (use_log_flux self)
    (include_ranges self) (Some m) (Some ov)
    (exclude_ranges self) (exclude_mask self) (exclude_overflow self)
    (wave self).

Definition set_exclude (self : Model) (m : list bool) (ov : list nat) : Model :=
  mkContinuumModel (version self) (trace self) (continuum_finder self)
    (max_iter self) (use_log_flux self)
    (include_ranges self) (include_mask self) (include_overflow self)
    (exclude_ranges self) (Some m) (Some ov)
    (wave self).

Definition set_ranges (self : Model)
    (inc exc : option (list (float * float))) : Model :=
  mkContinuumModel (version self) (trace self) (continuum_finder self)
    (max_iter self) (use_log_flux self)
    inc (include_mask self) (include_overflow self)
    exc (exclude_mask self) (exclude_overflow self)
    (wave self).

Definition set_max_iter (self : Model) (n : Z) : Model :=
  mkContinuumModel (version self) (trace self) (continuum_finder self)
    n (use_log_flux self)
    (include_ranges self) (include_mask self) (include_overflow self)
    (exclude_ranges self) (exclude_mask self) (exclude_overflow self)
    (wave self).

Definition set_use_log_flux (self : Model) (b : bool) : Model :=
  mkContinuumModel (version self) (trace self) (continuum_finder self)
    (max_iter self) b
    (include_ranges self) (include_mask self) (include_overflow self)
    (exclude_ranges self) (exclude_mask self) (exclude_overflow self)
    (wave self).

(** [ContinuumModel.init_wave]. The object is updated in place, so an
    exception of [ranges_to_mask] leaves the assignments made before it:
    the result is the object after the call and how the call ended. *)
Definition init_wave (self : Model) (w : list float)
    (force omit_overflow : bool) : Model * result unit :=
  let self := if force || bool_decide (wave self = None)
              then set_wave self w else self in
  let inc :=
    match include_ranges self with
    | Some ranges =>
        if force || bool_decide (include_mask self = None)
        then do (m, ov) <- ranges_to_mask w ranges None (Scalar 0) false omit_overflow;
             Ok (set_include self m ov)
        else Ok self
    | None => Ok self
    end in
  match inc with
  | Raise e => (self, Raise e)
  | Ok self =>
      match exclude_ranges self with
      | Some ranges =>
          if force || bool_decide (exclude_mask self = None)
          then match ranges_to_mask w ranges None (Scalar 0) false omit_overflow with
               | Ok (m, ov) => (set_exclude self m ov, Ok ())
               | Raise e => (self, Raise e)
               end
          else (self, Ok ())
      | None => (self, Ok ())
      end
  end.


End Model.

(** ** Flux transform *)

(** The values the transform methods can be handed: they are not typed, and
    one of them builds a tuple, so the embedding keeps the run-time type. *)
#[warnings="-register-all"]
Inductive pyval : Type :=
  | PyNone
  | PyArray (a : list float)
  | PyTuple (items : list pyval).

(** An elementwise binary operation with numpy's broadcasting in one
    dimension: equal lengths, or one operand of length one. *)
Definition broadcast {A B C : Type} (f : A -> B -> C) (a : list A) (b : list B)
    : result (list C) :=
  if Nat.eqb (length a) (length b) then Ok (zip_with f a b)
  else match a, b with
       | [u], _ => Ok (map (f u) b)
       | _, [v] => Ok (map (fun u => f u v) a)
       | _, _ => Raise ValueError
       end.

(** [x > c] and [x < c] for a Python float [c]: elementwise on an array; a
    tuple or [None] on the left is a TypeError. *)
Definition gt_scalar (x : pyval) (c : float) : result (list bool) :=
  match x with
  | PyArray a => Ok (map (fun v => PrimFloat.ltb c v) a)
  | _ => Raise TypeError
  end.

Definition lt_scalar (x : pyval) (c : float) : result (list bool) :=
  match x with
  | PyArray a => Ok (map (fun v => PrimFloat.ltb v c) a)
  | _ => Raise TypeError
  end.

(** [a / b] and [a * b]: defined on arrays only. *)
Definition arith (f : float -> float -> float) (a b : pyval) : result (list float) :=
  match a, b with
  | PyArray u, PyArray v => broadcast f u v
  | _, _ => Raise TypeError
  end.

(** [np.where(c, a, np.nan)]. *)
Definition where_nan (c : list bool) (a : list float) : result (list float) :=
  broadcast (fun (b : bool) v => if b then v else nan) c a.

(** The Python literal [1e-7] as a float64. *)
Definition epsilon : float := 0x1.ad7f29abcaf48p-24.

Section Transform.
(** [np.log] and [np.exp] on one float64. *)
Context (log exp : float -> float).
Context {Finder Trace : Type}.

(** [ContinuumModel.safe_log]: [np.log(np.where(x > 1e-7, x, np.nan))]. *)
Definition safe_log (x : pyval) : result pyval :=
  do c <- gt_scalar x epsilon;
  match x with
  | PyArray a => do v <- where_nan c a; Ok (PyArray (map log v))
  | _ => Raise TypeError
  end.

(** [ContinuumModel.safe_log_error]:
    [np.where(x > 1e-7, sigma / x, np.nan)]. *)
Definition safe_log_error (x sigma : pyval) : result pyval :=
  do c <- gt_scalar x epsilon;
  do q <- arith PrimFloat.div sigma x;
  do v <- where_nan c q;
  Ok (PyArray v).

(** [ContinuumModel.safe_exp]: [np.exp(np.where(x < 100, x, np.nan))]. *)
Definition safe_exp (x : pyval) : result pyval :=
  do c <- lt_scalar x 100;
  match x with
  | PyArray a => do v <- where_nan c a; Ok (PyArray (map exp v))
  | _ => Raise TypeError
  end.

(** [ContinuumModel.safe_exp_error]:
    [np.where(x < 100, x * sigma, np.nan)]. *)
Definition safe_exp_error (x sigma : pyval) : result pyval :=
  do c <- lt_scalar x 100;
  do q <- arith PrimFloat.mul x sigma;
  do v <- where_nan c q;
  Ok (PyArray v).

(** [ContinuumModel.transform_flux_forward]. The statement
    [flux = self.safe_log(flux),] ends in a comma: it binds [flux] to a
    one-element tuple, and the next statement passes that tuple on. *)
Definition transform_flux_forward (self : ContinuumModel Finder Trace)
    (flux flux_err : pyval) : result (pyval * pyval) :=
  if use_log_flux self then
    do lf <- safe_log flux;
    let flux := PyTuple [lf] in
    do flux_err <- match flux_err with
                   | PyNone => Ok PyNone
                   | _ => safe_log_error flux flux_err
                   end;
    Ok (flux, flux_err)
  else Ok (flux, flux_err).

(** [ContinuumModel.transform_flux_reverse]. *)
Definition transform_flux_reverse (self : ContinuumModel Finder Trace)
    (flux flux_err : pyval) : result (pyval * pyval) :=
  if use_log_flux self then
    do flux <- safe_exp flux;
    do flux_err <- match flux_err with
                   | PyNone => Ok PyNone
                   | _ => safe_exp_error flux flux_err
                   end;
    Ok (flux, flux_err)
  else Ok (flux, flux_err).

End Transform.

(** ** The iterative fit *)

(** Boolean arrays are objects: [fit_function] copies the caller's mask and
    hands its own to the finder, which may update it in place. The store
    maps the address of a mask object to its contents. *)
Abbreviation loc := nat (only parsing).
Abbreviation store := (gmap nat (list bool)) (only parsing).

(** What [find] returns as the mask: the object it was given, or a new
    array. *)
Inductive mask_ret : Type :=
  | SameArray
  | NewArray (m : list bool).

(** The reply of [find]: [written] is the contents of the mask object that
    was passed in, as the call leaves it (the argument itself when the finder
    does not write to it). *)
Record find_reply : Type := mkReply {
  written : list bool;
  returned : mask_ret;
  need_more_iter : bool;
}.

Section FitFunction.
(** [K]: the keyword arguments passed on to [fit]; [E]: the state of the
    collaborators, threaded through every call to one of them; [ID]: the
    identifier handed to the trace. A call to a collaborator returns: what
    the loop does when one of them raises is not part of the embedding. *)
Context {K E ID : Type}.

(** The fit-function contract. *)
Record FittableFunction : Type := mkFunc {
  get_param_count : nat;
  get_min_point_count : nat;
  (* fit(x, y, w=, p0=, **kwargs) *)
  fit : list float -> list float -> option (list float) ->
        option (list float) -> K -> E -> list float * E;
  (* eval(x, params) *)
  eval : list float -> list float -> E -> list float * E;
}.

(** The continuum-finder contract: [find(iter, x, y, w=, mask=, model=)]. *)
Record ContinuumFinder : Type := mkFinder {
  find : nat -> list float -> list float -> option (list float) ->
         list bool -> list float -> E -> find_reply * E;
}.

(** The trace hook: [on_fit_function_iter(id, iter, x, y, w, model, mask)].
    It records what it is shown and leaves the arrays as they are. *)
Record TraceHook : Type := mkTrace {
  on_fit_function_iter : ID -> nat -> list float -> list float ->
         option (list float) -> list float -> list bool -> E -> E;
}.

Abbreviation Model := (ContinuumModel ContinuumFinder TraceHook).

(** The local variables of [fit_function] inside its loop. [st_fits] is a
    ghost counter: the number of calls of [func.fit] made so far. *)
Record loop_state : Type := mkState {
  st_iter : nat;
  st_params : option (list float);
  st_success : bool;
  st_mask : loc;
  st_store : store;
  st_env : E;
  st_fits : nat;
}.

Inductive step : Type :=
  | Continue (s : loop_state)
  | Break (s : loop_state)
  | Throw (e : exn) (s : loop_state).

Section Call.
(** The arguments of a call; [finder] is the local [continuum_finder] after
    line 429, the finder in effect. *)
Context (self : Model) (id : ID) (func : FittableFunction)
        (x y : list float) (w : option (list float)) (p0 : option (list float))
        (finder : option ContinuumFinder) (kwargs : K).

(** Lines 440-448: take [p0] in the first round when the object has a
    finder, or fit on the points the mask selects. Gives the parameters,
    the collaborators' state and the number of fits made so far. *)
Definition fit_round (s : loop_state) : result (list float * E * nat) :=
  match Nat.eqb (st_iter s) 0, p0, continuum_finder self with
  | true, Some p, Some _ => Ok (p, st_env s, st_fits s)
  | _, _, _ =>
      let mask := st_store s !!! st_mask s in
      do xm <- Np.index x mask;
      do ym <- Np.index y mask;
      do wm <- match w with
               | Some w => do v <- Np.index w mask; Ok (Some v)
               | None => Ok None
               end;
      let '(p, e) := fit func xm ym wm (st_params s) kwargs (st_env s) in
      Ok (p, e, S (st_fits s))
  end.

(** Lines 450-451. *)
Definition trace_round (s : loop_state) (params : list float) (e : E) : E :=
  match trace self with
  | Some t =>
      let '(model, e) := eval func x params e in
      on_fit_function_iter t id (st_iter s) x y w model
        (st_store s !!! st_mask s) e
  | None => e
  end.

(** Lines 466-467: the call of the finder, on the model evaluated at the
    current parameters. *)
Definition find_call (f : ContinuumFinder) (s : loop_state)
    (params : list float) (e : E) : find_reply * E :=
  let '(model, e) := eval func x params e in
  find f (st_iter s) x y w (st_store s !!! st_mask s) model e.

(** The store and the mask variable after [mask, need_more_iter = find(...)]. *)
Definition rebind_mask (s : loop_state) (reply : find_reply) : loc * store :=
  let σ := <[st_mask s := written reply]> (st_store s) in
  match returned reply with
  | SameArray => (st_mask s, σ)
  | NewArray m => let l := fresh (dom σ) in (l, <[l := m]> σ)
  end.

(** Lines 466-475. *)
Definition find_round (f : ContinuumFinder) (s : loop_state)
    (params : list float) (e : E) (fits : nat) : step :=
  let '(reply, e) := find_call f s params e in
  let '(mask, σ) := rebind_mask s reply in
  let s' := mkState (S (st_iter s)) (Some params) true mask σ e fits in
  if negb (need_more_iter reply) then Break s'
  else if Nat.ltb (Np.sum (σ !!! mask)) (get_min_point_count func) then Break s'
  else Continue s'.

(** One pass through the body of [while True]. *)
Definition fit_function_body (s : loop_state) : step :=
  match fit_round s with
  | Raise e => Throw e s
  | Ok (params, e, fits) =>
      let e := trace_round s params e in
      match finder with
      | None =>
          Break (mkState (st_iter s) (Some params) true (st_mask s)
                         (st_store s) e fits)
      | Some f => find_round f s params e fits
      end
  end.

(** How the loop ended. *)
Inductive ended : Type :=
  | Returned (s : loop_state)
  | Raised (e : exn) (s : loop_state).

(** [while True]: at most [fuel] passes; [None] when the loop is still
    running after them. *)
Fixpoint fit_function_loop (fuel : nat) (s : loop_state) : option ended :=
  match fuel with
  | O => None
  | S fuel =>
      match fit_function_body s with
      | Continue s' => fit_function_loop fuel s'
      | Break s' => Some (Returned s')
      | Throw e s' => Some (Raised e s')
      end
  end.

(** The state in which round [k] (from 0) is entered when the loop starts in
    [s], if the loop gets that far. *)
Fixpoint rounds (k : nat) (s : loop_state) : option loop_state :=
  match k with
  | O => Some s
  | S k =>
      match fit_function_body s with
      | Continue s' => rounds k s'
      | Break _ | Throw _ _ => None
      end
  end.

End Call.

(** What a call leaves: the value returned or the exception, the store, the
    collaborators' state and the number of [func.fit] calls made. *)
Record outcome : Type := mkOutcome {
  ret : result (bool * option (list float));
  out_store : store;
  out_env : E;
  fit_calls : nat;
}.

(** The local [mask] before the loop: a new all-true array, or a copy of the
    caller's. *)
Definition initial_mask (x : list float) (mask : option loc) (σ : store)
    : list bool :=
  match mask with
  | None => Np.full (length x) true
  | Some l => σ !!! l
  end.

(** Lines 431-438: the state in which the loop is entered. The local mask
    is a new object in either case. *)
Definition initial_state (x : list float) (mask : option loc) (σ : store)
    (env : E) : loop_state :=
  let l := fresh (dom σ) in
  mkState 0 None false l (<[l := initial_mask x mask σ]> σ) env 0.

(** Lines 477-480, or the exception passed on. *)
Definition finish (param_count : nat) (r : ended) : outcome :=
  match r with
  | Raised e s => mkOutcome (Raise e) (st_store s) (st_env s) (st_fits s)
  | Returned s =>
      mkOutcome
        (Ok (if st_success s then (true, st_params s)
             else (false, Some (Np.full param_count nan))))
        (st_store s) (st_env s) (st_fits s)
  end.

(** Line 429, the finder in effect: the argument, or else the object's. *)
Definition effective_finder (self : Model)
    (arg : option ContinuumFinder) : option ContinuumFinder :=
  match arg with
  | Some f => Some f
  | None => continuum_finder self
  end.

(** [ContinuumModel.fit_function]. [mask] is the address of the caller's
    mask in the store [σ]. *)
Definition fit_function (fuel : nat) (self : Model) (id : ID)
    (func : FittableFunction) (x y : list float) (w p0 : option (list float))
    (mask : option loc) (continuum_finder : option ContinuumFinder)
    (kwargs : K) (σ : store) (env : E) : option outcome :=
  let param_count := get_param_count func in
  let continuum_finder := effective_finder self continuum_finder in
  finish param_count <$>
    fit_function_loop self id func x y w p0 continuum_finder kwargs fuel
      (initial_state x mask σ env).

End FitFunction.

(** ** Fitting a spectrum: [fit] and [eval] *)

(** The attributes that [fit] reads besides those above; [default_options]
    are the values [__init__] gives them. *)
Record FitOptions : Type := mkOptions {
  use_spec_continuum : bool;
  use_spec_mask : bool;
  mask_bits : option Z;
}.

Definition default_options : FitOptions :=
  {| use_spec_continuum := false; use_spec_mask := true; mask_bits := None |}.

(** What [fit] reads of a spectrum: [wave], [flux], [flux_err], [cont] and
    [mask_as_bool(bits=)], which gives a boolean array or [None]. *)
Record Spectrum : Type := mkSpectrum {
  spec_wave : list float;
  spec_flux : pyval;
  spec_flux_err : pyval;
  spec_cont : pyval;
  mask_as_bool : option Z -> option (list bool);
}.

Section Fit.
(** [P]: the fitted parameters; [E]: the state of the collaborators. *)
Context {P E Finder : Type}.
Context (log exp : float -> float).

(** The trace of [fit]: [on_fit_start] is shown the cached vector and the
    transformed flux and uncertainty, [on_fit_finish] the evaluated model
    with the flux, the uncertainty and the mask. *)
Record FitTrace : Type := mkFitTrace {
  on_fit_start : option (list float) -> pyval -> pyval -> E -> E;
  on_fit_finish : option (list float) -> pyval -> pyval -> pyval ->
                  option (list bool) -> E -> E;
}.

(** The methods a concrete model supplies: [fit_impl(flux, flux_err, mask)]
    and [eval_impl(params)]. *)
Record ModelImpl : Type := mkImpl {
  fit_impl : pyval -> pyval -> option (list bool) -> E -> result P * E;
  eval_impl : P -> E -> result pyval * E;
}.

(** [ContinuumModel.eval]: the cached vector and the model flux,
    transformed back. *)
Definition eval_model (self : ContinuumModel Finder FitTrace) (impl : ModelImpl)
    (params : P) (e : E) : result (option (list float) * pyval) * E :=
  match eval_impl impl params e with
  | (Raise ex, e) => (Raise ex, e)
  | (Ok flux, e) =>
      match transform_flux_reverse exp self flux PyNone with
      | Raise ex => (Raise ex, e)
      | Ok (flux, _) => (Ok (wave self, flux), e)
      end
  end.

(** Lines 359-363: the mask of the spectrum, when it is used and there is
    one, and-ed with the caller's. [m & mask] broadcasts. *)
Definition fit_mask (opts : FitOptions) (spec : Spectrum)
    (mask : option (list bool)) : result (option (list bool)) :=
  let m := if use_spec_mask opts then mask_as_bool spec (mask_bits opts)
           else None in
  match mask, m with
  | None, _ => Ok m
  | Some mask, None => Ok (Some mask)
  | Some mask, Some m => do r <- broadcast andb m mask; Ok (Some r)
  end.

(** [ContinuumModel.fit]: the object and the collaborators' state the call
    leaves, and the parameters or the exception. *)
Definition fit_spectrum (self : ContinuumModel Finder FitTrace)
    (opts : FitOptions) (impl : ModelImpl) (spec : Spectrum)
    (mask : option (list bool)) (e : E)
    : ContinuumModel Finder FitTrace * E * result P :=
  let '(self, bound) :=
    match wave self with
    | None => init_wave self (spec_wave spec) true false
    | Some _ => (self, Ok ())
    end in
  match bound with
  | Raise ex => (self, e, Raise ex)
  | Ok _ =>
      let '(flux, flux_err) :=
        if use_spec_continuum opts then (spec_cont spec, PyNone)
        else (spec_flux spec, spec_flux_err spec) in
      match transform_flux_forward log self flux flux_err with
      | Raise ex => (self, e, Raise ex)
      | Ok (flux, flux_err) =>
          match fit_mask opts spec mask with
          | Raise ex => (self, e, Raise ex)
          | Ok m =>
              let e := match trace self with
                       | Some t => on_fit_start t (wave self) flux flux_err e
                       | None => e
                       end in
              match fit_impl impl flux flux_err m e with
              | (Raise ex, e) => (self, e, Raise ex)
              | (Ok params, e) =>
                  match trace self with
                  | None => (self, e, Ok params)
                  | Some t =>
                      match eval_model self impl params e with
                      | (Raise ex, e) => (self, e, Raise ex)
                      | (Ok (w, cont), e) =>
                          (self, on_fit_finish t w cont flux flux_err m e,
                           Ok params)
                      end
                  end
              end
          end
      end
  end.

End Fit.

(** ** Constants stored along a grid *)

(** The exceptions of the methods that index dictionaries. *)
Inductive dict_exn : Type :=
  | KeyError (key : string)
  | NoneNotSubscriptable
  | NotImplementedError.

Section Constants.
Context {Finder Trace : Type}.

Definition set_version (self : ContinuumModel Finder Trace) (v : Z)
    : ContinuumModel Finder Trace :=
  mkContinuumModel v (trace self) (continuum_finder self)
    (max_iter self) (use_log_flux self)
    (include_ranges self) (include_mask self) (include_overflow self)
    (exclude_ranges self) (exclude_mask self) (exclude_overflow self)
    (wave self).

(** The key [f'{self.name}_version']. The property [name] raises
    NotImplementedError unless a model class overrides it: [None] here. *)
Definition version_key (name : option string) : dict_exn + string :=
  match name with
  | None => inl NotImplementedError
  | Some n => inr (n +:+ "_version")
  end.

(** [ContinuumModel.get_constants]. *)
Definition get_constants (name : option string)
    (self : ContinuumModel Finder Trace) : dict_exn + gmap string Z :=
  match version_key name with
  | inl ex => inl ex
  | inr k => inr {[ k := version self ]}
  end.

(** [ContinuumModel.set_constants], on a dictionary of integers. *)
Definition set_constants (name : option string)
    (self : ContinuumModel Finder Trace) (constants : gmap string Z)
    : dict_exn + ContinuumModel Finder Trace :=
  match version_key name with
  | inl ex => inl ex
  | inr k =>
      match constants !! k with
      | None => inl (KeyError k)
      | Some v => inr (set_version self v)
      end
  end.

End Constants.

(** [ContinuumModel.set_constant]: a value of the dictionary can be [None]. *)
Definition set_constant {V : Type} (name : string)
    (constants : gmap string (option V)) (default : V) : V :=
  match constants !! name with
  | Some (Some v) => v
  | _ => default
  end.

(** ** The trace of the parameters: [ModelGridRVFitTrace] *)

Section RVFitTrace.
(** [V]: the values of the parameters; [B]: what the base class
    [RVFitTrace] keeps; [A], [R]: the arguments handed on to it. The methods
    of the base class are given; they work on [B]. *)
Context {V B A R : Type}.
Context (super_reset : B -> B)
        (super_on_fit_rv_start : A -> B -> B)
        (super_on_fit_rv_iter : R -> B -> B).

Record ModelGridRVFitTrace : Type := mkRVTrace {
  plot_params_priors : bool;
  plot_params_cov : bool;
  params_iter : option (gmap string (list V));
  base : B;
}.

(** [ModelGridRVFitTrace.reset]. *)
Definition reset (self : ModelGridRVFitTrace) : ModelGridRVFitTrace :=
  mkRVTrace (plot_params_priors self) (plot_params_cov self) None
    (super_reset (base self)).

(** [{ p: [ params_0[p] ] for p in params_0 }], over the items of
    [params_0] in their order. *)
Fixpoint first_history (params_0 : list (string * V)) : gmap string (list V) :=
  match params_0 with
  | [] => ∅
  | (p, v) :: rest => <[p := [v]]> (first_history rest)
  end.

(** [ModelGridRVFitTrace.on_fit_rv_start]. *)
Definition on_fit_rv_start (self : ModelGridRVFitTrace) (args : A)
    (params_0 : list (string * V)) : ModelGridRVFitTrace :=
  mkRVTrace (plot_params_priors self) (plot_params_cov self)
    (Some (first_history params_0))
    (super_on_fit_rv_start args (base self)).

(** [for p in params: self.params_iter[p].append(params[p])], over the
    items of [params] in their order; the lists appended to before an
    exception stay appended to. *)
Fixpoint append_params (params : list (string * V))
    (d : option (gmap string (list V)))
    : option (gmap string (list V)) * option dict_exn :=
  match params with
  | [] => (d, None)
  | (p, v) :: rest =>
      match d with
      | None => (d, Some NoneNotSubscriptable)
      | Some h =>
          match h !! p with
          | None => (d, Some (KeyError p))
          | Some l => append_params rest (Some (<[p := l ++ [v]]> h))
          end
      end
  end.

(** [ModelGridRVFitTrace.on_fit_rv_iter]: the object after the call, and
    the exception if it raised. *)
Definition on_fit_rv_iter (self : ModelGridRVFitTrace) (rv : R)
    (params : list (string * V)) : ModelGridRVFitTrace * option dict_exn :=
  let b := super_on_fit_rv_iter rv (base self) in
  let '(d, ex) := append_params params (params_iter self) in
  (mkRVTrace (plot_params_priors self) (plot_params_cov self) d b, ex).

(** A fit: [on_fit_rv_start], then one [on_fit_rv_iter] for each step,
    until one raises. *)
Fixpoint on_fit_rv_iters (self : ModelGridRVFitTrace)
    (steps : list (R * list (string * V)))
    : ModelGridRVFitTrace * option dict_exn :=
  match steps with
  | [] => (self, None)
  | (rv, params) :: rest =>
      match on_fit_rv_iter self rv params with
      | (self, None) => on_fit_rv_iters self rest
      | (self, Some ex) => (self, Some ex)
      end
  end.

End RVFitTrace.

(** * Vocabulary of the properties *)

(** ** Ranges and overflow *)

(** A wavelength lies within the buffered bounds of a range, and the
    indices, counted from [i], of the ranges that overflow. *)
Definition in_range (d : float * float) (strict : bool) (r : float * float)
    (w : float) : bool :=
  lessthan (r.1 + d.1) w strict && lessthan w (r.2 - d.2) strict.

Fixpoint overflow_from (w0 w1 : float) (d : float * float) (i : nat)
    (ranges : list (float * float)) : list nat :=
  match ranges with
  | [] => []
  | r :: rest =>
      if overflows w0 w1 d r then i :: overflow_from w0 w1 d (S i) rest
      else overflow_from w0 w1 d (S i) rest
  end.

(** The mask after the ranges, from the accumulated mask [m]. *)
Definition merge_ranges (wave : list float) (w0 w1 : float) (d : float * float)
    (strict omit : bool) (ranges : list (float * float)) (m : list bool)
    : list bool :=
  fold_left (fun acc r => if overflows w0 w1 d r && omit then acc
                          else Np.or_ acc (range_mask wave d strict r))
            ranges m.

(** ** Intervals between limits *)

(** The intervals between consecutive limits, a missing lower limit being
    [w0] and a missing upper limit [w1]. *)
Definition intervals (w0 w1 : float) (limits : list (option float))
    : list (float * float) :=
  map (fun l => (default w0 l.1, default w1 l.2)) (limits_to_ranges limits).

(** The mask of one interval, restricted to the input mask. *)
Definition interval_mask (wave : list float) (mask : option (list bool))
    (d : float * float) (strict : bool) (r : float * float) : list bool :=
  match mask with
  | None => range_mask wave d strict r
  | Some mk => Np.and_ (range_mask wave d strict r) mk
  end.

(** The intervals that get a mask: all of them, or under [omit_overflow]
    those that do not overflow. *)
Definition kept (w0 w1 : float) (d : float * float) (omit : bool)
    (ivs : list (float * float)) : list (float * float) :=
  List.filter (fun r => negb (overflows w0 w1 d r && omit)) ivs.

(** What [actual_range] reports: nothing selected and [(nan, nan)], or the
    wavelengths at the first and at the last true position of the mask. *)
Definition first_last_selected (wave : list float) (m : list bool)
    (rg : float * float) : Prop :=
  ((forall j, m !! j <> Some true) /\ rg = (nan, nan)) \/
  (exists ja jb,
     ja <= jb /\
     wave !! ja = Some rg.1 /\ m !! ja = Some true /\
     wave !! jb = Some rg.2 /\ m !! jb = Some true /\
     forall j, m !! j = Some true -> ja <= j <= jb).

(** ** The cached masks *)

Section CacheVocabulary.
Context {Finder Trace : Type}.
Implicit Types self : ContinuumModel Finder Trace.




End CacheVocabulary.

(** ** Rounds of the fit loop *)

Section LoopVocabulary.
Context {K E ID : Type}.
Context (self : ContinuumModel (@ContinuumFinder E) (@TraceHook E ID))
        (id : ID) (func : @FittableFunction K E)
        (x y : list float) (w : option (list float)) (p0 : option (list float))
        (kwargs : K).

(** The first round takes [p0] instead of fitting. *)
Definition reuses_p0 : bool :=
  match p0, continuum_finder self with
  | Some _, Some _ => true
  | _, _ => false
  end.

(** The contents of the mask that [find] returned. *)
Definition returned_mask (reply : find_reply) : list bool :=
  match returned reply with
  | SameArray => written reply
  | NewArray m => m
  end.

(** The reply of the finder [f] in the round entered in state [s], when
    that round gets as far as calling it. *)
Definition round_reply (f : ContinuumFinder) (s : loop_state)
    : option find_reply :=
  match fit_round self func x y w p0 kwargs s with
  | Ok (p, e, _) =>
      Some (find_call func x y w f s p (trace_round self id func x y w s p e)).1
  | Raise _ => None
  end.

(** The loop writes to its own mask objects only: what the store [σ0] of
    the caller holds stays, and the local mask is no object of [σ0]. *)
Definition frame_inv (σ0 : store) (s : @loop_state E) : Prop :=
  (forall l m, σ0 !! l = Some m -> st_store s !! l = Some m) /\
  σ0 !! st_mask s = None.

End LoopVocabulary.

(** ** Collaborators of the concrete runs *)

(** A function that fits a constant pair of parameters and needs one point,
    a finder that stops at once, one that always asks for more, and one
    that clears, in place, the mask it is given and asks for more. *)
Definition const_func : @FittableFunction unit unit :=
  mkFunc 2 1
    (fun _ _ _ _ _ e => ([1; 2]%float, e))
    (fun x _ e => (map (fun _ => 0%float) x, e)).

Definition stop_finder : @ContinuumFinder unit :=
  mkFinder (fun _ _ _ _ mask _ e => (mkReply mask SameArray false, e)).

Definition more_finder : @ContinuumFinder unit :=
  mkFinder (fun _ _ _ _ mask _ e => (mkReply mask SameArray true, e)).

Definition clear_finder : @ContinuumFinder unit :=
  mkFinder (fun _ _ _ _ mask _ e =>
              (mkReply (map (fun _ => false) mask) SameArray true, e)).

(** A finder with a bound of its own: it asks for more in the first [n]
    rounds. A finder that asks for more in round 0 and from then on returns
    a new, cleared mask. A function whose fit records what it was given: the
    initial parameters followed by the ordinates of the selected points. *)
Definition until_finder (n : nat) : @ContinuumFinder unit :=
  mkFinder (fun iter _ _ _ mask _ e => (mkReply mask SameArray (Nat.ltb iter n), e)).

Definition shrink_finder : @ContinuumFinder unit :=
  mkFinder (fun iter _ _ _ mask _ e =>
              if Nat.eqb iter 0 then (mkReply mask SameArray true, e)
              else (mkReply mask (NewArray (map (fun _ => false) mask)) true, e)).

Definition probe_func : @FittableFunction unit unit :=
  mkFunc 2 1
    (fun _ ym _ p _ e => (default [] p ++ ym, e))
    (fun x _ e => (x, e)).

(** * Properties *)

Lemma bind_ok {A B : Type} (a : A) (k : A -> result B) : bind (Ok a) k = k a.
Proof. reflexivity. Qed.

(** ** Arrays *)

Lemma and_length (a b : list bool) :
  length a = length b -> length (Np.and_ a b) = length a.
Proof.
  revert b. induction a as [|u a IH]; intros [|v b] E; simpl in *; try done.
  f_equal. apply IH. lia.
Qed.

Lemma or_length (a b : list bool) :
  length a = length b -> length (Np.or_ a b) = length a.
Proof.
  revert b. induction a as [|u a IH]; intros [|v b] E; simpl in *; try done.
  f_equal. apply IH. lia.
Qed.

Lemma iand_length (m mask m' : list bool) :
  Np.iand m mask = Ok m' -> length m' = length m.
Proof.
  unfold Np.iand. destruct (Nat.eqb_spec (length mask) (length m)) as [E|E].
  - intros [= <-]. by apply and_length.
  - destruct mask as [|b [|? ?]]; try done.
    intros [= <-]. by rewrite length_map.
Qed.

Lemma iand_same_length (m mask : list bool) :
  length mask = length m -> Np.iand m mask = Ok (Np.and_ m mask).
Proof. intros E. unfold Np.iand. by rewrite E, Nat.eqb_refl. Qed.

Lemma range_mask_length wave d strict r :
  length (range_mask wave d strict r) = length wave.
Proof. unfold range_mask. rewrite and_length; by rewrite !length_map. Qed.

Lemma first_nonempty (wave : list float) :
  wave <> [] -> exists w0, Np.first wave = Ok w0.
Proof. destruct wave; [done | eauto]. Qed.

Lemma last_nonempty (wave : list float) :
  wave <> [] -> exists w1, Np.last wave = Ok w1.
Proof.
  intros H. unfold Np.last.
  destruct (exists_last H) as (l & v & ->).
  rewrite map_app. simpl. rewrite last_last. eauto.
Qed.

Lemma overflow_test_ok wave d r w0 w1 :
  Np.first wave = Ok w0 -> Np.last wave = Ok w1 ->
  overflow_test wave d r = Ok (overflows w0 w1 d r).
Proof.
  intros H0 H1. unfold overflow_test, overflows. rewrite H0. simpl.
  destruct (PrimFloat.ltb _ w0); [done |]. by rewrite H1.
Qed.

(** ** [ranges_to_mask] *)

(** The overflow scenario of the specification: over the wavelengths 100 to
    200 the range (50, 150) overflows; it marks the wavelengths it holds
    unless overflowing ranges are omitted. *)
Example ranges_to_mask_overflowing :
  ranges_to_mask [100; 150; 200]%float [(50, 150)]%float None (Scalar 0)
    false false = Ok ([true; true; false], [0]) /\
  ranges_to_mask [100; 150; 200]%float [(50, 150)]%float None (Scalar 0)
    false true = Ok ([false; false; false], [0]).
Proof. split; vm_compute; reflexivity. Qed.

(** Closed and open bounds. *)
Example ranges_to_mask_strict :
  ranges_to_mask [100; 150; 200]%float [(100, 150)]%float None (Scalar 0)
    false false = Ok ([true; true; false], []) /\
  ranges_to_mask [100; 150; 200]%float [(100, 200)]%float None (Scalar 0)
    true false = Ok ([false; true; false], []).
Proof. split; vm_compute; reflexivity. Qed.

(** The loop keeps the shape of the accumulated mask. *)
Lemma ranges_to_mask_loop_length wave d strict omit ranges :
  forall i m ov m' ov',
    length m = length wave ->
    ranges_to_mask_loop wave d strict omit i ranges m ov = Ok (m', ov') ->
    length m' = length wave.
Proof.
  induction ranges as [|r rest IH]; intros i m ov m' ov' Hm; simpl.
  - by intros [= <- _].
  - destruct (overflow_test wave d r) as [b|e]; simpl; [|done].
    destruct (b && omit); apply IH; try done.
    rewrite or_length; by rewrite ?range_mask_length.
Qed.

Lemma ranges_to_mask_length wave ranges mask dlambda strict omit m ov :
  ranges_to_mask wave ranges mask dlambda strict omit = Ok (m, ov) ->
  length m = length wave.
Proof.
  unfold ranges_to_mask.
  destruct (ranges_to_mask_loop _ _ _ _ _ _ _ _) as [[m0 ov0]|e] eqn:E;
    simpl; [|done].
  apply ranges_to_mask_loop_length in E;
    [|by unfold Np.full; rewrite length_replicate].
  destruct mask as [mask|].
  - destruct (Np.iand m0 mask) as [m1|] eqn:E1; simpl; [|done].
    intros [= <- _]. apply iand_length in E1. congruence.
  - intros [= <- _]. done.
Qed.

Lemma range_mask_map wave d strict r :
  range_mask wave d strict r = map (in_range d strict r) wave.
Proof.
  unfold range_mask, in_range. induction wave as [|w wave IH]; simpl; [done|].
  by rewrite IH.
Qed.

Lemma range_mask_lookup wave d strict r j :
  range_mask wave d strict r !! j = Some true <->
  exists wj, wave !! j = Some wj /\ in_range d strict r wj = true.
Proof.
  rewrite range_mask_map, list_lookup_fmap. split.
  - destruct (wave !! j) as [wj|]; simpl; [|done]. intros [= H]. eauto.
  - intros (wj & -> & H). simpl. by rewrite H.
Qed.

Lemma or_lookup (a b : list bool) j :
  length a = length b ->
  Np.or_ a b !! j = Some true <-> a !! j = Some true \/ b !! j = Some true.
Proof.
  revert b j. induction a as [|u a IH]; intros [|v b] j E; simpl in *; try done.
  - rewrite lookup_nil. tauto.
  - destruct j as [|j]; simpl.
    + destruct u, v; simpl; split; intros H; try done; tauto || (destruct H; done).
    + apply IH. lia.
Qed.

Lemma merge_ranges_length wave w0 w1 d strict omit ranges m :
  length m = length wave ->
  length (merge_ranges wave w0 w1 d strict omit ranges m) = length wave.
Proof.
  unfold merge_ranges. revert m.
  induction ranges as [|r rest IH]; intros m Hm; simpl; [done|].
  apply IH. destruct (_ && _); [done|].
  rewrite or_length; by rewrite ?range_mask_length.
Qed.

Lemma merge_ranges_lookup wave w0 w1 d strict omit ranges :
  forall m j,
    length m = length wave ->
    merge_ranges wave w0 w1 d strict omit ranges m !! j = Some true <->
    m !! j = Some true \/
    exists i r wj,
      ranges !! i = Some r /\
      (omit = true -> overflows w0 w1 d r = false) /\
      wave !! j = Some wj /\ in_range d strict r wj = true.
Proof.
  unfold merge_ranges.
  induction ranges as [|r rest IH]; intros m j Hm; simpl.
  - split; [tauto|]. intros [H|(i & r & wj & H & _)]; [done|].
    by rewrite lookup_nil in H.
  - rewrite IH; clear IH.
    2:{ destruct (_ && _); [done|].
        rewrite or_length; by rewrite ?range_mask_length. }
    split.
    + intros [H|(i & r' & wj & H1 & H2 & H3 & H4)].
      * destruct (overflows w0 w1 d r && omit) eqn:Eo; [tauto|].
        apply or_lookup in H; [|by rewrite range_mask_length].
        destruct H as [H|H]; [tauto|]. right.
        apply range_mask_lookup in H as (wj & Hw & Hr).
        exists 0, r, wj. repeat split; try done.
        intros ->. by rewrite andb_true_r in Eo.
      * right. exists (S i), r', wj. done.
    + intros [H|(i & r' & wj & H1 & H2 & H3 & H4)].
      * left. destruct (_ && _); [done|].
        apply or_lookup; [by rewrite range_mask_length | tauto].
      * destruct i as [|i]; simpl in H1.
        -- injection H1 as ->. left.
           destruct (overflows w0 w1 d r') eqn:Eo, omit; simpl;
             try (apply or_lookup; [by rewrite range_mask_length|]; right;
                  apply range_mask_lookup; eauto).
           by specialize (H2 eq_refl).
        -- right. exists i, r', wj. done.
Qed.

Lemma ranges_to_mask_loop_spec wave d strict omit w0 w1 ranges :
  Np.first wave = Ok w0 -> Np.last wave = Ok w1 ->
  forall i m ov,
    ranges_to_mask_loop wave d strict omit i ranges m ov =
    Ok (merge_ranges wave w0 w1 d strict omit ranges m,
        ov ++ overflow_from w0 w1 d i ranges).
Proof.
  intros H0 H1. unfold merge_ranges.
  induction ranges as [|r rest IH]; intros i m ov; simpl.
  - by rewrite app_nil_r.
  - rewrite (overflow_test_ok _ _ _ _ _ H0 H1). simpl.
    destruct (overflows w0 w1 d r); simpl.
    + destruct omit; rewrite IH, <- app_assoc; done.
    + by rewrite IH.
Qed.

Lemma overflow_from_elem w0 w1 d ranges :
  forall i k,
    k ∈ overflow_from w0 w1 d i ranges <->
    exists r, i <= k /\ ranges !! (k - i) = Some r /\ overflows w0 w1 d r = true.
Proof.
  induction ranges as [|r rest IH]; intros i k; simpl.
  - split; [by intros ?%elem_of_nil|]. intros (r & _ & H & _).
    by rewrite lookup_nil in H.
  - assert (Hrest : k ∈ overflow_from w0 w1 d (S i) rest <->
              exists r', S i <= k /\ rest !! (k - S i) = Some r' /\
                         overflows w0 w1 d r' = true) by apply IH.
    destruct (overflows w0 w1 d r) eqn:Eo.
    + rewrite elem_of_cons, Hrest. split.
      * intros [->|(r' & Hk & Hl & Ho)].
        -- exists r. rewrite Nat.sub_diag. done.
        -- exists r'. split; [lia|]. split; [|done].
           replace (k - i) with (S (k - S i)) by lia. done.
      * intros (r' & Hk & Hl & Ho).
        destruct (decide (k = i)) as [->|Hne]; [by left|]. right.
        exists r'. split; [lia|]. split; [|done].
        replace (k - i) with (S (k - S i)) in Hl by lia. done.
    + rewrite Hrest. split.
      * intros (r' & Hk & Hl & Ho). exists r'. split; [lia|]. split; [|done].
        replace (k - i) with (S (k - S i)) by lia. done.
      * intros (r' & Hk & Hl & Ho).
        destruct (decide (k = i)) as [->|Hne].
        -- rewrite Nat.sub_diag in Hl. simpl in Hl. congruence.
        -- exists r'. split; [lia|]. split; [|done].
           replace (k - i) with (S (k - S i)) in Hl by lia. done.
Qed.



(** On a non-empty wavelength vector and without an input mask,
    [ranges_to_mask] returns. *)
Lemma ranges_to_mask_total wave ranges dlambda strict omit :
  wave <> [] ->
  exists m ov,
    ranges_to_mask wave ranges None dlambda strict omit = Ok (m, ov) /\
    length m = length wave.
Proof.
  intros Hw.
  destruct (first_nonempty wave Hw) as [w0 H0].
  destruct (last_nonempty wave Hw) as [w1 H1].
  unfold ranges_to_mask.
  rewrite (ranges_to_mask_loop_spec _ _ _ _ w0 w1 _ H0 H1). simpl.
  eexists _, _. split; [done|].
  apply merge_ranges_length. unfold Np.full. by rewrite length_replicate.
Qed.



(** ** The cached masks *)

Section Cache.
Context {Finder Trace : Type}.
Implicit Types self : ContinuumModel Finder Trace.



(** On a non-empty wavelength vector [init_wave] returns. *)
Lemma init_wave_total self w force omit :
  w <> [] -> exists self', init_wave self w force omit = (self', Ok ()).
Proof.
  intros Hw.
  assert (Hr : forall ranges, exists m ov,
            ranges_to_mask w ranges None (Scalar 0) false omit = Ok (m, ov) /\
            length m = length w)
    by (intros; by apply ranges_to_mask_total).
  unfold init_wave.
  repeat match goal with
    | |- context [ranges_to_mask w ?r None (Scalar 0) false omit] =>
        let E := fresh "E" in
        destruct (Hr r) as (? & ? & E & _); rewrite E; clear E; simpl
    | |- context [match ?o with Some _ => _ | None => _ end] => destruct o; simpl
    | |- context [if ?b then _ else _] => destruct b; simpl
    end; eauto.
Qed.



End Cache.




(** An [init_wave] call that raises is another matter: on an empty vector
    with ranges configured, [wave] has been assigned when [ranges_to_mask]
    raises, and the mask cached before stays. *)
Example init_wave_raises_on_empty_vector :
  let self : ContinuumModel unit unit :=
    set_ranges (init None None None) (Some [(50, 150)]%float) None in
  let after := init_wave (init_wave self [100; 150; 200]%float true false).1
                 [] true false in
  after.2 = Raise IndexError /\
  wave after.1 = Some [] /\
  include_mask after.1 = Some [true; true; false].
Proof. vm_compute. done. Qed.

(** ** [limits_to_masks] *)

Lemma limits_to_ranges_length {A : Type} (limits : list A) :
  length (limits_to_ranges limits) = length limits - 1.
Proof.
  destruct limits as [|l0 rest]; [done|]. simpl. rewrite Nat.sub_0_r.
  revert l0. induction rest as [|l1 rest IH]; intros l0; [done|].
  simpl. f_equal. apply IH.
Qed.

Lemma kept_all w0 w1 d ivs : kept w0 w1 d false ivs = ivs.
Proof.
  unfold kept. induction ivs as [|r ivs IH]; simpl; [done|].
  rewrite andb_false_r. simpl. by rewrite IH.
Qed.

Lemma kept_length w0 w1 d ivs :
  forall i,
    length (kept w0 w1 d true ivs) + length (overflow_from w0 w1 d i ivs)
    = length ivs.
Proof.
  unfold kept. induction ivs as [|r ivs IH]; intros i; simpl; [done|].
  rewrite andb_true_r. destruct (overflows w0 w1 d r); simpl.
  - rewrite Nat.add_succ_r. f_equal. apply IH.
  - f_equal. apply IH.
Qed.

Lemma limits_to_masks_loop_spec wave mask d strict omit w0 w1 :
  Np.first wave = Ok w0 -> Np.last wave = Ok w1 ->
  (forall mk, mask = Some mk -> length mk = length wave) ->
  forall rest l0 i masks ranges ov,
    let ivs := intervals w0 w1 (l0 :: rest) in
    let new := map (interval_mask wave mask d strict) (kept w0 w1 d omit ivs) in
    limits_to_masks_loop wave mask d strict omit i (l0 :: rest) masks ranges ov
    = Ok (masks ++ new,
          ranges ++ map (fun m => actual_range (Np.select wave m)) new,
          ov ++ overflow_from w0 w1 d i ivs).
Proof.
  intros H0 H1 Hmask.
  induction rest as [|l1 rest IH]; intros l0 i masks ranges ov.
  - simpl. by rewrite !app_nil_r.
  - cbn zeta.
    change (limits_to_masks_loop wave mask d strict omit i (l0 :: l1 :: rest)
              masks ranges ov)
      with (do a <- lower_limit wave l0;
            do b <- upper_limit wave l1;
            do o <- overflow_test wave d (a, b);
            let ov' := if o then ov ++ [i] else ov in
            if o && omit
            then limits_to_masks_loop wave mask d strict omit (S i) (l1 :: rest)
                   masks ranges ov'
            else
              let m := range_mask wave d strict (a, b) in
              do m <- match mask with
                      | None => Ok m
                      | Some mask => Np.iand m mask
                      end;
              do w <- Np.index wave m;
              limits_to_masks_loop wave mask d strict omit (S i) (l1 :: rest)
                (masks ++ [m]) (ranges ++ [actual_range w]) ov').
    assert (Ha : lower_limit wave l0 = Ok (default w0 l0))
      by (destruct l0; simpl; done).
    assert (Hb : upper_limit wave l1 = Ok (default w1 l1))
      by (destruct l1; simpl; done).
    rewrite Ha, bind_ok, Hb, bind_ok.
    rewrite (overflow_test_ok _ _ _ _ _ H0 H1), bind_ok.
    set (r := (default w0 l0, default w1 l1)).
    change (intervals w0 w1 (l0 :: l1 :: rest))
      with (r :: intervals w0 w1 (l1 :: rest)).
    unfold kept; simpl List.filter; simpl overflow_from. fold (kept w0 w1 d omit).
    destruct (overflows w0 w1 d r && omit) eqn:Eo; simpl negb; cbv iota.
    + apply andb_true_iff in Eo as [-> ->]. rewrite IH.
      by rewrite <- app_assoc.
    + assert (Hm : match mask with
                   | None => Ok (range_mask wave d strict r)
                   | Some mk => Np.iand (range_mask wave d strict r) mk
                   end = Ok (interval_mask wave mask d strict r)).
      { unfold interval_mask. destruct mask as [mk|]; [|done].
        apply iand_same_length. rewrite range_mask_length. by apply Hmask. }
      cbv zeta. rewrite Hm, bind_ok.
      assert (Hi : Np.index wave (interval_mask wave mask d strict r)
                   = Ok (Np.select wave (interval_mask wave mask d strict r))).
      { unfold Np.index.
        replace (length (interval_mask wave mask d strict r)) with (length wave);
          [by rewrite Nat.eqb_refl|].
        unfold interval_mask. destruct mask as [mk|].
        - rewrite and_length; rewrite range_mask_length; [done|].
          symmetry. by apply Hmask.
        - by rewrite range_mask_length. }
      rewrite Hi, bind_ok, IH. simpl map.
      rewrite <- !app_assoc. simpl.
      destruct (overflows w0 w1 d r); [|done]. by rewrite <- app_assoc.
Qed.

(** C7, as the code has it: on a wavelength vector with first value [w0]
    and last value [w1], [limits_to_masks] returns one mask for every
    interval between consecutive limits that is kept, in order: every
    interval when [omit_overflow] is false (N-1 masks for N limits), only
    the intervals that do not overflow when it is true (N-1 less the number
    of overflowing intervals). With every mask comes the pair of the first
    and the last wavelength it selects, or [(nan, nan)] when it selects
    none. *)
Theorem limits_to_masks_intervals wave limits mask dlambda strict omit w0 w1 :
  let d := dlambda_pair dlambda in
  let ivs := intervals w0 w1 limits in
  Np.first wave = Ok w0 -> Np.last wave = Ok w1 ->
  (forall mk, mask = Some mk -> length mk = length wave) ->
  exists masks ranges ov,
    limits_to_masks wave limits mask dlambda strict omit
      = Ok (masks, ranges, ov) /\
    masks = map (interval_mask wave mask d strict) (kept w0 w1 d omit ivs) /\
    ranges = map (fun m => actual_range (Np.select wave m)) masks /\
    ov = overflow_from w0 w1 d 0 ivs /\
    length ranges = length masks /\
    (omit = false -> length masks = length limits - 1) /\
    (omit = true -> length masks + length ov = length limits - 1).
Proof.
  intros d ivs H0 H1 Hmask.
  assert (E : limits_to_masks wave limits mask dlambda strict omit
              = Ok (map (interval_mask wave mask d strict) (kept w0 w1 d omit ivs),
                    map (fun m => actual_range (Np.select wave m))
                      (map (interval_mask wave mask d strict)
                         (kept w0 w1 d omit ivs)),
                    overflow_from w0 w1 d 0 ivs)).
  { unfold limits_to_masks. destruct limits as [|l0 rest]; [done|].
    by rewrite (limits_to_masks_loop_spec wave mask _ strict omit w0 w1 H0 H1 Hmask). }
  eexists _, _, _. split; [exact E|].
  repeat split; try done.
  - by rewrite !length_map.
  - intros ->. rewrite kept_all, length_map. unfold ivs, intervals.
    by rewrite length_map, limits_to_ranges_length.
  - intros ->. rewrite length_map, kept_length. unfold ivs, intervals.
    by rewrite length_map, limits_to_ranges_length.
Qed.

Lemma limits_to_masks_intervals_witness :
  exists masks ranges ov,
    limits_to_masks [100; 200]%float [Some 100; None]%float None (Scalar 0)
      false false = Ok (masks, ranges, ov) /\
    length masks = 1 /\ ranges = [(100, 200)]%float.
Proof.
  destruct (limits_to_masks_intervals [100; 200]%float [Some 100; None]%float
              None (Scalar 0) false false 100%float 200%float
              eq_refl eq_refl)
    as (masks & ranges & ov & E & _ & _ & _ & _ & Hn & _); [done|].
  exists masks, ranges, ov. split; [exact E|]. split; [by apply Hn|].
  vm_compute in E. by injection E as <- <- <-.
Defined.

(** C7 as stated fails under [omit_overflow]: of the two intervals between
    the three limits 50, 150 and 200 over the wavelengths 100 and 200, the
    first overflows and gets no mask. *)
Lemma limits_to_masks_omit_counterexample :
  limits_to_masks [100; 200]%float [Some 50; Some 150; Some 200]%float None
    (Scalar 0) false true
  = Ok ([[false; true]], [(200, 200)]%float, [0]) /\
  ~ (exists masks ranges ov,
       limits_to_masks [100; 200]%float [Some 50; Some 150; Some 200]%float
         None (Scalar 0) false true = Ok (masks, ranges, ov) /\
       length masks = 3 - 1).
Proof.
  split; [vm_compute; reflexivity|].
  intros (masks & ranges & ov & E & Hn).
  vm_compute in E. injection E as <- <- <-. discriminate.
Qed.

(** ** Flux transform *)

Lemma where_nan_same_length (c : list bool) (a : list float) :
  length c = length a ->
  where_nan c a = Ok (zip_with (fun (b : bool) v => if b then v else nan) c a).
Proof. intros E. unfold where_nan, broadcast. by rewrite E, Nat.eqb_refl. Qed.

Lemma safe_log_array log (a : list float) :
  safe_log log (PyArray a)
  = Ok (PyArray (map (fun v => log (if PrimFloat.ltb epsilon v then v else nan)) a)).
Proof.
  unfold safe_log. simpl. rewrite where_nan_same_length by by rewrite length_map.
  simpl. do 2 f_equal. induction a as [|v a IH]; simpl; [done|]. by rewrite IH.
Qed.

(** C4, at every flux array [a] once log-flux mode is switched on:
    [transform_flux_forward] returns the logarithms wrapped in a one-element
    tuple, and [transform_flux_reverse] applied to that value raises a
    TypeError, so the round trip gives no flux back at all. *)
Theorem transform_round_trip_raises (log exp : float -> float)
    {Finder Trace : Type} (self : ContinuumModel Finder Trace) (a : list float) :
  let self := set_use_log_flux self true in
  let lf := map (fun v => log (if PrimFloat.ltb epsilon v then v else nan)) a in
  transform_flux_forward log self (PyArray a) PyNone
    = Ok (PyTuple [PyArray lf], PyNone) /\
  transform_flux_reverse exp self (PyTuple [PyArray lf]) PyNone
    = Raise TypeError.
Proof.
  split.
  - unfold transform_flux_forward. simpl use_log_flux. cbv iota.
    rewrite safe_log_array. reflexivity.
  - reflexivity.
Qed.

(** C5, at every flux array [a] and uncertainty array [s] once log-flux mode
    is switched on: [transform_flux_forward] raises a TypeError, because
    [safe_log_error] is handed the tuple that [flux] was rebound to and
    compares it with [1e-7]; no uncertainty vector is returned. *)
Theorem transform_flux_err_raises (log : float -> float)
    {Finder Trace : Type} (self : ContinuumModel Finder Trace)
    (a s : list float) :
  transform_flux_forward log (set_use_log_flux self true)
    (PyArray a) (PyArray s) = Raise TypeError.
Proof.
  unfold transform_flux_forward. simpl use_log_flux. cbv iota.
  rewrite safe_log_array. reflexivity.
Qed.

(** ** The iterative fit *)

Section Loop.
Context {K E ID : Type}.
Context (self : ContinuumModel (@ContinuumFinder E) (@TraceHook E ID))
        (id : ID) (func : @FittableFunction K E)
        (x y : list float) (w : option (list float)) (p0 : option (list float))
        (kwargs : K).

Lemma rebind_mask_contents (s : @loop_state E) (reply : find_reply) :
  (rebind_mask s reply).2 !!! (rebind_mask s reply).1 = returned_mask reply.
Proof.
  unfold rebind_mask, returned_mask.
  destruct (returned reply); simpl; by rewrite lookup_total_insert_eq.
Qed.

(** A round makes at most one fit, and none exactly when it takes [p0]. *)
Lemma fit_round_fits s p e n :
  fit_round self func x y w p0 kwargs s = Ok (p, e, n) ->
  n = if Nat.eqb (st_iter s) 0 && reuses_p0 self p0
      then st_fits s else S (st_fits s).
Proof.
  unfold fit_round, reuses_p0.
  destruct (Nat.eqb (st_iter s) 0), p0 as [p'|], (continuum_finder self);
    simpl; try (by intros [= _ _ <-]);
    destruct (Np.index x _); simpl; try done;
    destruct (Np.index y _); simpl; try done;
    destruct w as [w'|]; simpl;
    try (destruct (Np.index w' _); simpl; try done);
    destruct (fit _ _ _ _ _ _ _); by intros [= _ _ <-].
Qed.

(** What one round does once the finder has replied. *)
Lemma body_with_finder f s p e n :
  fit_round self func x y w p0 kwargs s = Ok (p, e, n) ->
  let e1 := trace_round self id func x y w s p e in
  let reply := (find_call func x y w f s p e1).1 in
  let s' := mkState (S (st_iter s)) (Some p) true (rebind_mask s reply).1
              (rebind_mask s reply).2 (find_call func x y w f s p e1).2 n in
  fit_function_body self id func x y w p0 (Some f) kwargs s
  = if negb (need_more_iter reply) then Break s'
    else if Nat.ltb (Np.sum (returned_mask reply)) (get_min_point_count func)
         then Break s' else Continue s'.
Proof.
  intros Hfit. cbv zeta. unfold fit_function_body, find_round. rewrite Hfit.
  destruct (find_call _ _ _ _ _ _ _ _) as [reply e2]. simpl fst. simpl snd.
  rewrite <- (rebind_mask_contents s reply).
  destruct (rebind_mask s reply) as [l σ']. reflexivity.
Qed.

Lemma loop_after_rounds cf k fuel s s' :
  rounds self id func x y w p0 cf kwargs k s = Some s' ->
  fit_function_loop self id func x y w p0 cf kwargs (k + fuel) s
  = fit_function_loop self id func x y w p0 cf kwargs fuel s'.
Proof.
  revert s. induction k as [|k IH]; intros s; simpl.
  - by intros [= ->].
  - destruct (fit_function_body _ _ _ _ _ _ _ _ _ s); try done. apply IH.
Qed.

Lemma loop_running_in_round cf k s s' :
  rounds self id func x y w p0 cf kwargs k s = Some s' ->
  forall fuel, fuel <= k ->
    fit_function_loop self id func x y w p0 cf kwargs fuel s = None.
Proof.
  revert s. induction k as [|k IH]; intros s Hk fuel Hle.
  - by replace fuel with 0 by lia.
  - destruct fuel as [|fuel]; [done|]. simpl in *.
    destruct (fit_function_body _ _ _ _ _ _ _ _ _ s); try done.
    apply IH; [done | lia].
Qed.

(** The loop reads two attributes of the object, the finder and the trace:
    assigning [max_iter] changes nothing. *)
Lemma loop_max_iter_irrelevant n cf fuel :
  forall s,
    fit_function_loop (set_max_iter self n) id func x y w p0 cf kwargs fuel s
    = fit_function_loop self id func x y w p0 cf kwargs fuel s.
Proof.
  induction fuel as [|fuel IH]; intros s; simpl; [done|].
  change (fit_function_body (set_max_iter self n) id func x y w p0 cf kwargs s)
    with (fit_function_body self id func x y w p0 cf kwargs s).
  destruct (fit_function_body _ _ _ _ _ _ _ _ _ s); [apply IH | done | done].
Qed.

(** Every way out of the loop by [break] has set [success] and bound
    [params]: the last two lines of [fit_function] are never reached with
    [success] false. *)
Lemma body_break_success cf s s' :
  fit_function_body self id func x y w p0 cf kwargs s = Break s' ->
  st_success s' = true /\ is_Some (st_params s').
Proof.
  unfold fit_function_body.
  destruct (fit_round _ _ _ _ _ _ _ s) as [[[p e] n]|]; [|done].
  destruct cf as [f|]; [|by intros [= <-]].
  unfold find_round.
  destruct (find_call _ _ _ _ _ _ _ _) as [reply e2].
  destruct (rebind_mask s reply) as [l σ'].
  destruct (negb _); [by intros [= <-]|].
  destruct (Nat.ltb _ _); [by intros [= <-]|done].
Qed.

Lemma fit_function_returns_success fuel mask cf σ (env : E) out b p :
  fit_function fuel self id func x y w p0 mask cf kwargs σ env = Some out ->
  ret out = Ok (b, p) -> b = true /\ is_Some p.
Proof.
  unfold fit_function.
  generalize (initial_state x mask σ env). generalize (effective_finder self cf).
  intros cf' s. revert s.
  induction fuel as [|fuel IH]; intros s; simpl; [done|].
  destruct (fit_function_body _ _ _ _ _ _ _ _ _ s) as [s'|s'|e s'] eqn:Hb.
  - apply IH.
  - apply body_break_success in Hb as [Hs Hp]. simpl. intros [= <-]. simpl.
    rewrite Hs. by intros [= <- <-].
  - simpl. intros [= <-]. done.
Qed.

(** *** The frame of a call *)

Lemma initial_state_frame mask σ (env : E) :
  frame_inv σ (initial_state x mask σ env).
Proof.
  unfold frame_inv, initial_state. simpl.
  assert (Hf : σ !! fresh (dom σ) = None)
    by (apply not_elem_of_dom, is_fresh).
  split; [|done]. intros l m Hl.
  rewrite lookup_insert_ne; [done|]. intros <-. congruence.
Qed.

Lemma rebind_mask_frame σ0 (s : @loop_state E) reply :
  frame_inv σ0 s ->
  (forall l m, σ0 !! l = Some m -> (rebind_mask s reply).2 !! l = Some m) /\
  σ0 !! (rebind_mask s reply).1 = None.
Proof.
  intros [Hkeep Hmask]. unfold rebind_mask.
  assert (Hw : forall l m, σ0 !! l = Some m ->
            <[st_mask s := written reply]> (st_store s) !! l = Some m).
  { intros l m Hl. rewrite lookup_insert_ne; [by apply Hkeep|].
    intros <-. congruence. }
  destruct (returned reply) as [|m']; simpl; [done|].
  set (σ1 := <[st_mask s := written reply]> (st_store s)) in *.
  assert (Hf : σ1 !! fresh (dom σ1) = None)
    by (apply not_elem_of_dom, is_fresh).
  split.
  - intros l m Hl. rewrite lookup_insert_ne; [by apply Hw|].
    intros <-. apply Hw in Hl. congruence.
  - destruct (σ0 !! fresh (dom σ1)) as [m|] eqn:Hl; [|done].
    apply Hw in Hl. congruence.
Qed.

Lemma body_frame cf σ0 s :
  frame_inv σ0 s ->
  match fit_function_body self id func x y w p0 cf kwargs s with
  | Continue s' | Break s' | Throw _ s' => frame_inv σ0 s'
  end.
Proof.
  intros Hs. unfold fit_function_body.
  destruct (fit_round _ _ _ _ _ _ _ s) as [[[p e] n]|]; [|done].
  destruct cf as [f|]; [|done].
  unfold find_round.
  destruct (find_call _ _ _ _ _ _ _ _) as [reply e2].
  pose proof (rebind_mask_frame σ0 s reply Hs) as Hr.
  destruct (rebind_mask s reply) as [l σ'].
  destruct (negb _); [done|]. destruct (Nat.ltb _ _); done.
Qed.

Lemma loop_frame cf σ0 fuel :
  forall s r,
    frame_inv σ0 s ->
    fit_function_loop self id func x y w p0 cf kwargs fuel s = Some r ->
    match r with Returned s' | Raised _ s' => frame_inv σ0 s' end.
Proof.
  induction fuel as [|fuel IH]; intros s r Hs; simpl; [done|].
  pose proof (body_frame cf σ0 s Hs) as Hb.
  destruct (fit_function_body _ _ _ _ _ _ _ _ _ s) as [s'|s'|e s'].
  - by apply IH.
  - by intros [= <-].
  - by intros [= <-].
Qed.

Lemma rounds_frame cf σ0 k :
  forall s s',
    frame_inv σ0 s ->
    rounds self id func x y w p0 cf kwargs k s = Some s' ->
    frame_inv σ0 s'.
Proof.
  induction k as [|k IH]; intros s s' Hs; simpl; [by intros [= <-]|].
  pose proof (body_frame cf σ0 s Hs) as Hb.
  destruct (fit_function_body _ _ _ _ _ _ _ _ _ s) as [s1|s1|e s1]; try done.
  by apply IH.
Qed.

(** *** Rounds that go on and rounds that stop *)

Lemma rounds_S cf k s :
  rounds self id func x y w p0 cf kwargs (S k) s
  = match fit_function_body self id func x y w p0 cf kwargs s with
    | Continue s' => rounds self id func x y w p0 cf kwargs k s'
    | Break _ | Throw _ _ => None
    end.
Proof. reflexivity. Qed.

Lemma rounds_snoc cf k :
  forall s s1 s2,
    rounds self id func x y w p0 cf kwargs k s = Some s1 ->
    fit_function_body self id func x y w p0 cf kwargs s1 = Continue s2 ->
    rounds self id func x y w p0 cf kwargs (S k) s = Some s2.
Proof.
  induction k as [|k IH]; intros s s1 s2 Hk Hb.
  - injection Hk as ->. by rewrite rounds_S, Hb.
  - rewrite rounds_S in Hk. rewrite rounds_S.
    destruct (fit_function_body _ _ _ _ _ _ _ _ _ s); try done.
    by apply (IH _ s1).
Qed.

Lemma body_continue_iter cf s s' :
  fit_function_body self id func x y w p0 cf kwargs s = Continue s' ->
  st_iter s' = S (st_iter s).
Proof.
  unfold fit_function_body.
  destruct (fit_round _ _ _ _ _ _ _ s) as [[[p e] n]|]; [|done].
  destruct cf as [f|]; [|done].
  unfold find_round.
  destruct (find_call _ _ _ _ _ _ _ _) as [reply e2].
  destruct (rebind_mask s reply) as [l σ'].
  destruct (negb _); [done|]. destruct (Nat.ltb _ _); [done|].
  by intros [= <-].
Qed.

Lemma rounds_iter cf k :
  forall s s',
    rounds self id func x y w p0 cf kwargs k s = Some s' ->
    st_iter s' = st_iter s + k.
Proof.
  induction k as [|k IH]; intros s s'.
  - intros [= <-]. lia.
  - rewrite rounds_S.
    destruct (fit_function_body _ _ _ _ _ _ _ _ _ s) as [s1|s1|e s1] eqn:Hb;
      try done.
    intros Hk. apply IH in Hk. apply body_continue_iter in Hb. lia.
Qed.

(** The finder asks for more and leaves enough points: the round ends in
    [continue]. *)
Lemma round_goes_on f s reply :
  round_reply self id func x y w p0 kwargs f s = Some reply ->
  need_more_iter reply = true ->
  get_min_point_count func <= Np.sum (returned_mask reply) ->
  exists s',
    fit_function_body self id func x y w p0 (Some f) kwargs s = Continue s'.
Proof.
  intros Hreply Hmore Hsum. unfold round_reply in Hreply.
  destruct (fit_round _ _ _ _ _ _ _ s) as [[[p e] n]|] eqn:Hfit; [|done].
  injection Hreply as Hreply.
  pose proof (body_with_finder f s p e n Hfit) as Hbody.
  cbv zeta in Hbody. rewrite Hreply, Hmore in Hbody. simpl negb in Hbody.
  cbv iota in Hbody.
  apply Nat.ltb_ge in Hsum. rewrite Hsum in Hbody. eauto.
Qed.

(** The finder stops, or leaves too few points: the round ends in [break],
    with the parameters of its fit step. *)
Lemma round_stops f s reply :
  round_reply self id func x y w p0 kwargs f s = Some reply ->
  need_more_iter reply = false \/
    Np.sum (returned_mask reply) < get_min_point_count func ->
  exists s' p e n,
    fit_round self func x y w p0 kwargs s = Ok (p, e, n) /\
    fit_function_body self id func x y w p0 (Some f) kwargs s = Break s' /\
    st_success s' = true /\ st_params s' = Some p /\ st_fits s' = n.
Proof.
  intros Hreply Hstop. unfold round_reply in Hreply.
  destruct (fit_round _ _ _ _ _ _ _ s) as [[[p e] n]|] eqn:Hfit; [|done].
  injection Hreply as Hreply.
  pose proof (body_with_finder f s p e n Hfit) as Hbody.
  cbv zeta in Hbody. rewrite Hreply in Hbody.
  destruct Hstop as [Hstop|Hstop].
  - rewrite Hstop in Hbody. simpl in Hbody. eexists _, p, e, n. eauto.
  - apply Nat.ltb_lt in Hstop. rewrite Hstop in Hbody.
    destruct (negb _); eexists _, p, e, n; eauto.
Qed.

(** When the finder asks for more, with enough points, in each of the
    rounds before round [k], round [k] is entered. *)
Lemma rounds_entered f k s0 :
  (forall j s, j < k ->
     rounds self id func x y w p0 (Some f) kwargs j s0 = Some s ->
     exists reply,
       round_reply self id func x y w p0 kwargs f s = Some reply /\
       need_more_iter reply = true /\
       get_min_point_count func <= Np.sum (returned_mask reply)) ->
  exists s, rounds self id func x y w p0 (Some f) kwargs k s0 = Some s.
Proof.
  induction k as [|k IH]; intros Hall; [by exists s0|].
  destruct IH as [s Hs]; [intros j s' Hj; apply Hall; lia|].
  destruct (Hall k s (Nat.lt_succ_diag_r k) Hs) as (reply & Hr & Hm & Hn).
  destruct (round_goes_on f s reply Hr Hm Hn) as [s' Hb].
  exists s'. by apply (rounds_snoc _ _ _ s).
Qed.

(** The fit step of a round that does not take [p0] is a call of
    [func.fit] on the points of the mask, from the parameters of the round
    before. *)
Lemma fit_round_fitted s p e n :
  Nat.eqb (st_iter s) 0 && reuses_p0 self p0 = false ->
  fit_round self func x y w p0 kwargs s = Ok (p, e, n) ->
  let m := st_store s !!! st_mask s in
  (p, e) = fit func (Np.select x m) (Np.select y m)
             ((fun w' => Np.select w' m) <$> w)
             (st_params s) kwargs (st_env s) /\
  n = S (st_fits s).
Proof.
  intros Hfits. cbv zeta. unfold fit_round.
  assert (Hr : (do xm <- Np.index x (st_store s !!! st_mask s);
                do ym <- Np.index y (st_store s !!! st_mask s);
                do wm <- match w with
                         | Some w0 =>
                             do v <- Np.index w0 (st_store s !!! st_mask s);
                             Ok (Some v)
                         | None => Ok None
                         end;
                let '(p, e) := fit func xm ym wm (st_params s) kwargs (st_env s) in
                Ok (p, e, S (st_fits s))) = Ok (p, e, n) ->
               (p, e) = fit func (Np.select x (st_store s !!! st_mask s))
                          (Np.select y (st_store s !!! st_mask s))
                          ((fun w' => Np.select w' (st_store s !!! st_mask s)) <$> w)
                          (st_params s) kwargs (st_env s) /\
               n = S (st_fits s)).
  { unfold Np.index.
    destruct (Nat.eqb _ (length x)); [|done]. rewrite bind_ok.
    destruct (Nat.eqb _ (length y)); [|done]. rewrite bind_ok.
    destruct w as [w'|]; simpl.
    - destruct (Nat.eqb _ (length w')); [|done]. simpl.
      destruct (fit _ _ _ _ _ _ _). by intros [= <- <- <-].
    - destruct (fit _ _ _ _ _ _ _). by intros [= <- <- <-]. }
  unfold reuses_p0 in Hfits.
  destruct (Nat.eqb (st_iter s) 0), p0 as [p'|], (continuum_finder self);
    simpl in Hfits; try done; exact Hr.
Qed.

End Loop.

(** *** Claims on [fit_function] *)

(** C10: the local mask of [fit_function] is a copy of the caller's at
    another address, and every object of the caller's store, the mask passed
    in among them, holds after the call what it held before: when the call
    returns, when it raises, and in every round on the way, whatever
    the finder writes to the mask it is handed. *)
Theorem fit_function_keeps_caller_mask {K E ID : Type}
    (self : ContinuumModel (@ContinuumFinder E) (@TraceHook E ID)) (id : ID)
    (func : @FittableFunction K E) (x y : list float)
    (w p0 : option (list float)) (l : nat)
    (cf : option (@ContinuumFinder E)) (kwargs : K)
    (σ : gmap nat (list bool)) (env : E) (m : list bool) :
  σ !! l = Some m ->
  let s0 := initial_state x (Some l) σ env in
  (st_mask s0 <> l /\ st_store s0 !! st_mask s0 = Some m) /\
  (forall fuel out,
     fit_function fuel self id func x y w p0 (Some l) cf kwargs σ env = Some out ->
     out_store out !! l = Some m) /\
  (forall k s,
     rounds self id func x y w p0 (effective_finder self cf) kwargs k s0 = Some s ->
     st_store s !! l = Some m).
Proof.
  intros Hl s0.
  pose proof (initial_state_frame (E:=E) x (Some l) σ env) as H0.
  split; [|split].
  - unfold s0, initial_state. simpl. split.
    + intros Heq. destruct H0 as [_ H0]. simpl in H0. rewrite Heq in H0.
      congruence.
    + rewrite lookup_insert_eq. by rewrite (lookup_total_correct _ _ _ Hl).
  - intros fuel out. unfold fit_function.
    destruct (fit_function_loop _ _ _ _ _ _ _ _ _ fuel _) as [r|] eqn:Hr;
      simpl; [|done].
    intros [= <-].
    apply (loop_frame _ _ _ _ _ _ _ _ _ σ) in Hr; [|exact H0].
    destruct r as [s'|e s']; simpl; by apply Hr.
  - intros k s Hk.
    apply (rounds_frame _ _ _ _ _ _ _ _ _ σ) in Hk; [|exact H0].
    by apply Hk.
Qed.

Lemma fit_function_keeps_caller_mask_witness :
  exists out,
    fit_function (ID:=unit) 3 (init (Some clear_finder) None None) tt const_func
      [1; 2]%float [1; 2]%float None None (Some 0) None tt
      {[0 := [true; true]]} tt = Some out /\
    out_store out !! 0 = Some [true; true] /\
    out_store out !! 1 = Some [false; false].
Proof.
  destruct (fit_function (ID:=unit) 3 (init (Some clear_finder) None None) tt
              const_func [1; 2]%float [1; 2]%float None None (Some 0) None tt
              {[0 := [true; true]]} tt) as [out|] eqn:Hrun;
    [|vm_compute in Hrun; discriminate].
  exists out. split; [reflexivity|]. split.
  - assert (H0 : ({[0 := [true; true]]} : gmap nat (list bool)) !! 0
                 = Some [true; true]) by (vm_compute; reflexivity).
    exact (proj1 (proj2 (fit_function_keeps_caller_mask
             (init (Some clear_finder) None None) tt const_func
             [1; 2]%float [1; 2]%float None None 0 None tt
             {[0 := [true; true]]} tt [true; true] H0)) 3 out Hrun).
  - vm_compute in Hrun. injection Hrun as <-. vm_compute. reflexivity.
Defined.

(** With a finder that always asks for more and leaves one point in the
    mask, every round ends in [Continue]. *)
Lemma more_finder_continues (max_iter : option Z) (fuel : nat) :
  forall s : @loop_state unit,
    st_store s !! st_mask s = Some [true] ->
    fit_function_loop (ID:=unit) (init (Some more_finder) max_iter None) tt
      const_func [1%float] [1%float] None None (Some more_finder) tt fuel s
    = None.
Proof.
  induction fuel as [|fuel IH]; intros s Hs; simpl; [done|].
  assert (Hfit : fit_round (ID:=unit) (init (Some more_finder) max_iter None) const_func
                   [1%float] [1%float] None None tt s
                 = Ok ([1; 2]%float, st_env s, S (st_fits s))).
  { unfold fit_round. rewrite (lookup_total_correct _ _ _ Hs).
    by destruct (Nat.eqb (st_iter s) 0). }
  rewrite (body_with_finder _ tt _ _ _ _ _ _ more_finder s _ _ _ Hfit).
  unfold find_call, trace_round. simpl.
  rewrite (lookup_total_correct _ _ _ Hs). simpl.
  apply IH. simpl. unfold rebind_mask. simpl. by rewrite lookup_insert_eq.
Qed.

(** C1 as stated fails: with [max_iter = 5], a finder that always replies
    [need_more_iter = True] and keeps one point in the mask, on a function
    that needs one point, keeps the call in its loop after any number of
    rounds. *)
Lemma fit_function_max_iter_counterexample :
  max_iter (init (Some more_finder) (Some 5%Z) (None : option (@TraceHook unit unit)))
    = 5%Z /\
  ~ (exists fuel out,
       fit_function (ID:=unit) fuel (init (Some more_finder) (Some 5%Z) None) tt
         const_func [1%float] [1%float] None None None None tt ∅ tt = Some out).
Proof.
  split; [reflexivity|]. intros (fuel & out & Hrun).
  unfold fit_function in Hrun. simpl effective_finder in Hrun.
  rewrite more_finder_continues in Hrun; [done|].
  unfold initial_state. simpl. by rewrite lookup_insert_eq.
Qed.

(** C1, as the code has it: [fit_function] does not read [max_iter]:
    assigning it changes no run. With a finder in effect, its replies alone
    decide the number of rounds. When, in each of the rounds before round
    [k], the finder replies [need_more_iter = True] and returns a mask with
    at least [get_min_point_count] true points, round [k] is entered and
    the call is still in its loop after [k] rounds; when moreover, in round
    [k], the finder replies [need_more_iter = False] or returns a mask with
    fewer true points, the call returns with success at the end of round
    [k]; and when the finder replies so in every round, the call never
    returns, whatever [max_iter] is. *)
Theorem fit_function_rounds {K E ID : Type}
    (self : ContinuumModel (@ContinuumFinder E) (@TraceHook E ID)) (id : ID)
    (func : @FittableFunction K E) (x y : list float)
    (w p0 : option (list float)) (mask : option nat)
    (cf : option (@ContinuumFinder E)) (kwargs : K)
    (σ : gmap nat (list bool)) (env : E) (f : @ContinuumFinder E) :
  let run := fun self' fuel =>
    fit_function fuel self' id func x y w p0 mask cf kwargs σ env in
  let entered := fun k s =>
    rounds self id func x y w p0 (Some f) kwargs k (initial_state x mask σ env)
    = Some s in
  let asks_for_more := fun s =>
    exists reply,
      round_reply self id func x y w p0 kwargs f s = Some reply /\
      need_more_iter reply = true /\
      get_min_point_count func <= Np.sum (returned_mask reply) in
  let stops := fun s =>
    exists reply,
      round_reply self id func x y w p0 kwargs f s = Some reply /\
      (need_more_iter reply = false \/
       Np.sum (returned_mask reply) < get_min_point_count func) in
  (forall n fuel, run (set_max_iter self n) fuel = run self fuel) /\
  (effective_finder self cf = Some f ->
   (forall k,
      (forall j s, j < k -> entered j s -> asks_for_more s) ->
      (exists s, entered k s /\ st_iter s = k) /\
      (forall fuel, fuel <= k -> run self fuel = None)) /\
   (forall k,
      (forall j s, j < k -> entered j s -> asks_for_more s) ->
      (forall s, entered k s -> stops s) ->
      exists out p,
        ret out = Ok (true, Some p) /\
        forall fuel, run self (k + S fuel) = Some out) /\
   ((forall j s, entered j s -> asks_for_more s) ->
    forall n fuel, run (set_max_iter self n) fuel = None)).
Proof.
  intros run entered asks_for_more stops.
  assert (Hmax : forall n fuel, run (set_max_iter self n) fuel = run self fuel).
  { intros n fuel. unfold run, fit_function.
    change (effective_finder (set_max_iter self n) cf)
      with (effective_finder self cf).
    by rewrite loop_max_iter_irrelevant. }
  split; [exact Hmax|]. intros Hf.
  assert (Hgo : forall k,
            (forall j s, j < k -> entered j s -> asks_for_more s) ->
            (exists s, entered k s /\ st_iter s = k) /\
            (forall fuel, fuel <= k -> run self fuel = None)).
  { intros k Hall.
    destruct (rounds_entered self id func x y w p0 kwargs f k
                (initial_state x mask σ env) Hall) as [s Hs].
    split.
    - exists s. split; [exact Hs|].
      by rewrite (rounds_iter _ _ _ _ _ _ _ _ _ _ _ _ Hs).
    - intros fuel Hle. unfold run, fit_function. rewrite Hf.
      by rewrite (loop_running_in_round _ _ _ _ _ _ _ _ _ _ _ _ Hs). }
  split; [exact Hgo|]. split.
  - intros k Hall Hstop.
    destruct (Hgo k Hall) as [(s & Hs & _) _].
    destruct (Hstop s Hs) as (reply & Hreply & Hcase).
    destruct (round_stops self id func x y w p0 kwargs f s reply Hreply Hcase)
      as (s' & p & e & n & _ & Hb & Hsucc & Hp & _).
    exists (finish (get_param_count func) (Returned s')), p. split.
    + simpl. by rewrite Hsucc, Hp.
    + intros fuel. unfold run, fit_function. rewrite Hf.
      rewrite (loop_after_rounds _ _ _ _ _ _ _ _ _ _ _ _ _ Hs).
      simpl. by rewrite Hb.
  - intros Hall n fuel. rewrite Hmax.
    destruct (Hgo fuel) as [_ Hrun]; [intros j s _; apply Hall|].
    by apply Hrun.
Qed.

Lemma fit_function_rounds_witness :
  let self := init (Some (until_finder 2)) (Some 1%Z) None in
  let run := fun fuel =>
    fit_function (ID:=unit) fuel self tt const_func [1%float] [1%float]
      None None None None tt ∅ tt in
  max_iter self = 1%Z /\
  (forall fuel, fuel <= 2 -> run fuel = None) /\
  (exists out p,
     ret out = Ok (true, Some p) /\ forall fuel, run (2 + S fuel) = Some out).
Proof.
  cbv zeta. split; [reflexivity|].
  destruct (fit_function_rounds
              (init (Some (until_finder 2)) (Some 1%Z) None) tt
              const_func [1%float] [1%float] None None None None tt ∅ tt
              (until_finder 2)) as [_ H].
  destruct (H eq_refl) as (Hgo & Hstop & _).
  assert (Hreplies : forall j s, j < 2 ->
            rounds (ID:=unit) (init (Some (until_finder 2)) (Some 1%Z) None) tt
              const_func [1%float] [1%float] None None (Some (until_finder 2))
              tt j (initial_state [1%float] None ∅ tt) = Some s ->
            exists reply,
              round_reply (init (Some (until_finder 2)) (Some 1%Z) None) tt
                const_func [1%float] [1%float] None None tt (until_finder 2) s
              = Some reply /\
              need_more_iter reply = true /\
              get_min_point_count const_func <= Np.sum (returned_mask reply)).
  { intros j s Hj Hs. destruct j as [|[|j]]; [| |lia];
      vm_compute in Hs; injection Hs as <-;
      (eexists; split; [vm_compute; reflexivity|]);
      split; [reflexivity | vm_compute; lia | reflexivity | vm_compute; lia]. }
  split.
  - apply (Hgo 2 Hreplies).
  - apply (Hstop 2 Hreplies).
    intros s Hs. vm_compute in Hs. injection Hs as <-.
    eexists. split; [vm_compute; reflexivity|]. left. reflexivity.
Defined.

(** C2, as the code has it: when the finder in effect replies
    [need_more_iter = False] to its first call, [fit_function] returns with
    success after exactly one call of [func.fit], and after none when the
    first round takes [p0] (a [p0] is passed and the object has a finder).
    There is no fit on the mask the finder returned. *)
Theorem fit_function_finder_stops {K E ID : Type}
    (self : ContinuumModel (@ContinuumFinder E) (@TraceHook E ID)) (id : ID)
    (func : @FittableFunction K E) (x y : list float)
    (w p0 : option (list float)) (mask : option nat)
    (cf : option (@ContinuumFinder E)) (kwargs : K)
    (σ : gmap nat (list bool)) (env : E)
    (f : @ContinuumFinder E) (reply : find_reply) (fuel : nat) :
  effective_finder self cf = Some f ->
  round_reply self id func x y w p0 kwargs f (initial_state x mask σ env)
    = Some reply ->
  need_more_iter reply = false ->
  exists out p,
    fit_function (S fuel) self id func x y w p0 mask cf kwargs σ env = Some out /\
    ret out = Ok (true, Some p) /\
    fit_calls out = if reuses_p0 self p0 then 0 else 1.
Proof.
  intros Hf Hreply Hstop. unfold fit_function. rewrite Hf.
  unfold round_reply in Hreply.
  destruct (fit_round _ _ _ _ _ _ _ _) as [[[p e] n]|] eqn:Hfit; [|done].
  injection Hreply as Hreply.
  simpl fit_function_loop.
  rewrite (body_with_finder _ id _ _ _ _ _ _ f _ _ _ _ Hfit).
  cbv zeta. rewrite Hreply, Hstop. simpl.
  eexists _, p. split; [reflexivity|]. simpl. split; [done|].
  apply fit_round_fits in Hfit. simpl in Hfit. by destruct (reuses_p0 self p0).
Qed.

Lemma fit_function_finder_stops_witness :
  exists out p,
    fit_function (ID:=unit) 1 (init (Some stop_finder) None None) tt const_func
      [1; 2]%float [1; 2]%float None None None None tt ∅ tt = Some out /\
    ret out = Ok (true, Some p) /\
    fit_calls out = 1.
Proof.
  apply (fit_function_finder_stops (init (Some stop_finder) None None) tt
           const_func [1; 2]%float [1; 2]%float None None None None tt ∅ tt
           stop_finder (mkReply [true; true] SameArray false) 0).
  - reflexivity.
  - vm_compute. reflexivity.
  - reflexivity.
Defined.

(** C2 as stated fails: the finder stops at its first call, and
    [func.fit] has been called once, not twice, when no [p0] is passed, and
    not at all, rather than once, when the first round takes [p0]. *)
Lemma fit_function_finder_stops_counterexample :
  let self := init (Some stop_finder) None None in
  let run p0 :=
    fit_function (ID:=unit) 3 self tt const_func [1; 2]%float [1; 2]%float
      None p0 None None tt ∅ tt in
  (need_more_iter <$>
     round_reply self tt const_func [1; 2]%float [1; 2]%float None None tt
       stop_finder (initial_state [1; 2]%float None ∅ tt)) = Some false /\
  fit_calls <$> run None = Some 1 /\
  fit_calls <$> run None <> Some 2 /\
  fit_calls <$> run (Some [7%float]) = Some 0 /\
  fit_calls <$> run (Some [7%float]) <> Some 1.
Proof.
  cbv zeta. repeat split; try (vm_compute; reflexivity);
    vm_compute; discriminate.
Qed.

(** C3, on the code: with a [p0] passed, a finder configured on the object
    and that finder stopping at its first call, [fit_function] returns
    success with [p0] itself although [func.fit] was never called. *)
Theorem fit_function_success_without_fit :
  (fun out => (ret out, fit_calls out)) <$>
    fit_function (ID:=unit) 1 (init (Some stop_finder) None None) tt const_func
      [1; 2]%float [1; 2]%float None (Some [7%float]) None None tt ∅ tt
  = Some (Ok (true, Some [7%float]), 0).
Proof. vm_compute. reflexivity. Qed.

(** C8 as stated fails: with a [p0] passed and a finder on the object,
    round 0 takes [p0]; the finder asks for more and clears the mask, and
    the call returns [(True, p0)] although no fit has completed. *)
Lemma fit_function_min_point_floor_counterexample :
  let self := init (Some clear_finder) None None in
  let reply :=
    round_reply self tt const_func [1; 2]%float [1; 2]%float None
      (Some [7%float]) tt clear_finder (initial_state [1; 2]%float None ∅ tt) in
  need_more_iter <$> reply = Some true /\
  (fun r => Np.sum (returned_mask r)) <$> reply = Some 0 /\
  get_min_point_count const_func = 1 /\
  (fun out => (ret out, fit_calls out)) <$>
    fit_function (ID:=unit) 1 self tt const_func [1; 2]%float [1; 2]%float
      None (Some [7%float]) None None tt ∅ tt
  = Some (Ok (true, Some [7%float]), 0).
Proof. cbv zeta. repeat split; vm_compute; reflexivity. Qed.

(** C8, as the code has it: in any round [k] of a call that is not a
    round 0 taking [p0], entered in state [s]: when the finder replies
    [need_more_iter = True] with a mask that has fewer true points than
    [get_min_point_count], the call returns at the end of that round with
    [True] and the parameters that [func.fit] returned in that round, on
    the points of the round's mask and from the parameters of the round
    before; that fit is the last one made. *)
Theorem fit_function_min_point_floor {K E ID : Type}
    (self : ContinuumModel (@ContinuumFinder E) (@TraceHook E ID)) (id : ID)
    (func : @FittableFunction K E) (x y : list float)
    (w p0 : option (list float)) (mask : option nat)
    (cf : option (@ContinuumFinder E)) (kwargs : K)
    (σ : gmap nat (list bool)) (env : E)
    (f : @ContinuumFinder E) (k : nat) (s : @loop_state E)
    (reply : find_reply) :
  effective_finder self cf = Some f ->
  rounds self id func x y w p0 (Some f) kwargs k (initial_state x mask σ env)
    = Some s ->
  (k = 0 -> reuses_p0 self p0 = false) ->
  round_reply self id func x y w p0 kwargs f s = Some reply ->
  need_more_iter reply = true ->
  Np.sum (returned_mask reply) < get_min_point_count func ->
  let m := st_store s !!! st_mask s in
  let fitted :=
    fit func (Np.select x m) (Np.select y m) ((fun w' => Np.select w' m) <$> w)
      (st_params s) kwargs (st_env s) in
  exists out,
    (forall fuel,
       fit_function (k + S fuel) self id func x y w p0 mask cf kwargs σ env
       = Some out) /\
    ret out = Ok (true, Some fitted.1) /\
    fit_calls out = S (st_fits s).
Proof.
  intros Hf Hk Hround Hreply Hmore Hfew m fitted.
  destruct (round_stops self id func x y w p0 kwargs f s reply Hreply
              (or_intror Hfew))
    as (s' & p & e & n & Hfit & Hb & Hsucc & Hp & Hn).
  assert (Hfits : Nat.eqb (st_iter s) 0 && reuses_p0 self p0 = false).
  { rewrite (rounds_iter _ _ _ _ _ _ _ _ _ _ _ _ Hk). simpl.
    destruct k as [|k]; simpl; [by apply Hround|done]. }
  destruct (fit_round_fitted self func x y w p0 kwargs s p e n Hfits Hfit)
    as [Hfitted ->].
  fold m in Hfitted. fold fitted in Hfitted.
  exists (finish (get_param_count func) (Returned s')). split; [|split].
  - intros fuel. unfold fit_function. rewrite Hf.
    rewrite (loop_after_rounds _ _ _ _ _ _ _ _ _ _ _ _ _ Hk).
    simpl. by rewrite Hb.
  - simpl. rewrite Hsucc, Hp. by rewrite <- Hfitted.
  - simpl. exact Hn.
Qed.

Lemma fit_function_min_point_floor_witness :
  let self := init (Some shrink_finder) None None in
  exists out,
    (forall fuel,
       fit_function (ID:=unit) (1 + S fuel) self tt probe_func
         [1; 2]%float [3; 4]%float None None None None tt ∅ tt = Some out) /\
    ret out = Ok (true, Some [3; 4; 3; 4]%float) /\
    fit_calls out = 2.
Proof.
  cbv zeta.
  destruct (fit_function_min_point_floor
              (init (Some shrink_finder) None None) tt probe_func
              [1; 2]%float [3; 4]%float None None None None tt ∅ tt
              shrink_finder 1
              (mkState 1 (Some [3; 4]%float) true 0 {[0 := [true; true]]} tt 1)
              (mkReply [true; true] (NewArray [false; false]) true))
    as (out & Hrun & Hret & Hcalls).
  - reflexivity.
  - vm_compute. reflexivity.
  - discriminate.
  - vm_compute. reflexivity.
  - reflexivity.
  - vm_compute. lia.
  - exists out. split; [exact Hrun|]. split; [|exact Hcalls].
    rewrite Hret. vm_compute. reflexivity.
Defined.

(** * Further properties *)

(** ** [ranges_to_mask] on its edges *)

Lemma ranges_to_mask_loop_empty_wave d strict omit i r rest m ov :
  ranges_to_mask_loop [] d strict omit i (r :: rest) m ov = Raise IndexError.
Proof. reflexivity. Qed.

(** The result of [ranges_to_mask] without an input mask, in closed form. *)
Lemma ranges_to_mask_closed wave ranges dlambda strict omit w0 w1 :
  Np.first wave = Ok w0 -> Np.last wave = Ok w1 ->
  ranges_to_mask wave ranges None dlambda strict omit
  = Ok (merge_ranges wave w0 w1 (dlambda_pair dlambda) strict omit ranges
          (Np.full (length wave) false),
        overflow_from w0 w1 (dlambda_pair dlambda) 0 ranges).
Proof.
  intros H0 H1. unfold ranges_to_mask.
  by rewrite (ranges_to_mask_loop_spec _ _ _ _ w0 w1 _ H0 H1).
Qed.

(** A call that returns has read no wavelength, or the vector was not
    empty. *)
Lemma ranges_to_mask_ok_cases wave ranges mask dlambda strict omit m ov :
  ranges_to_mask wave ranges mask dlambda strict omit = Ok (m, ov) ->
  ranges = [] \/ exists w0 w1, Np.first wave = Ok w0 /\ Np.last wave = Ok w1.
Proof.
  intros Hrun. destruct ranges as [|r rest]; [by left|]. right.
  destruct wave as [|w wave'].
  - unfold ranges_to_mask in Hrun.
    by rewrite ranges_to_mask_loop_empty_wave in Hrun.
  - exists w. destruct (last_nonempty (w :: wave')) as [w1 H1]; [done|]. eauto.
Qed.

(** X1: without ranges, [ranges_to_mask] returns the all-false mask of the
    vector's length and no overflow, on any vector, the empty one too; with
    at least one range, an empty vector raises IndexError. *)
Theorem ranges_to_mask_empty_inputs :
  (forall wave dlambda strict omit,
     ranges_to_mask wave [] None dlambda strict omit
     = Ok (replicate (length wave) false, [])) /\
  (forall r ranges mask dlambda strict omit,
     ranges_to_mask [] (r :: ranges) mask dlambda strict omit
     = Raise IndexError).
Proof. split; reflexivity. Qed.

(** X2: an input mask is combined at the end: of the length of the vector
    it is and-ed with the mask of the ranges; of length one it is broadcast;
    of any other length the call raises ValueError. The overflow list is
    that of the call without it. *)
Theorem ranges_to_mask_input_mask wave ranges mk dlambda strict omit m ov :
  ranges_to_mask wave ranges None dlambda strict omit = Ok (m, ov) ->
  ranges_to_mask wave ranges (Some mk) dlambda strict omit
  = if Nat.eqb (length mk) (length wave) then Ok (Np.and_ m mk, ov)
    else match mk with
         | [b] => Ok (map (fun v => v && b) m, ov)
         | _ => Raise ValueError
         end.
Proof.
  intros Hrun. pose proof (ranges_to_mask_length _ _ _ _ _ _ _ _ Hrun) as Hlen.
  unfold ranges_to_mask in *.
  destruct (ranges_to_mask_loop _ _ _ _ _ _ _ _) as [[m0 ov0]|]; [|done].
  simpl in *. injection Hrun as -> ->.
  unfold Np.iand. rewrite Hlen.
  destruct (Nat.eqb (length mk) (length wave)); [done|].
  destruct mk as [|b [|? ?]]; done.
Qed.

Lemma ranges_to_mask_input_mask_witness :
  ranges_to_mask [100; 150; 200]%float [(100, 150)]%float
    (Some [true; false; true]) (Scalar 0) false false
  = Ok ([true; false; false], []).
Proof.
  rewrite (ranges_to_mask_input_mask [100; 150; 200]%float [(100, 150)]%float
             [true; false; true] (Scalar 0) false false
             [true; true; false] []); [reflexivity|].
  vm_compute. reflexivity.
Defined.

(** X3: the overflow list depends on the vector, the ranges and the
    buffer only: two calls that differ in [strict], [omit_overflow] or the
    input mask return the same list. *)
Theorem ranges_to_mask_overflow_independent wave ranges dlambda
    mask strict omit m ov mask' strict' omit' m' ov' :
  ranges_to_mask wave ranges mask dlambda strict omit = Ok (m, ov) ->
  ranges_to_mask wave ranges mask' dlambda strict' omit' = Ok (m', ov') ->
  ov = ov'.
Proof.
  intros H1 H2.
  assert (Hov : forall mask strict omit m ov,
            ranges_to_mask wave ranges mask dlambda strict omit = Ok (m, ov) ->
            forall w0 w1, Np.first wave = Ok w0 -> Np.last wave = Ok w1 ->
            ov = overflow_from w0 w1 (dlambda_pair dlambda) 0 ranges).
  { clear. intros mask strict omit m ov Hrun w0 w1 H0 H1.
    unfold ranges_to_mask in Hrun.
    rewrite (ranges_to_mask_loop_spec _ _ _ _ w0 w1 _ H0 H1) in Hrun.
    simpl in Hrun. destruct mask as [mk|].
    - destruct (Np.iand _ mk); simpl in Hrun; [|done]. by injection Hrun as _ <-.
    - by injection Hrun as _ <-. }
  destruct (ranges_to_mask_ok_cases _ _ _ _ _ _ _ _ H1) as [->|(w0 & w1 & Hf & Hl)].
  - unfold ranges_to_mask in *. simpl in *.
    destruct mask as [mk|], mask' as [mk'|];
      repeat match goal with
        | H : context [Np.iand ?a ?b] |- _ => destruct (Np.iand a b); simpl in H
        end; congruence.
  - rewrite (Hov _ _ _ _ _ H1 w0 w1 Hf Hl). by rewrite (Hov _ _ _ _ _ H2 w0 w1 Hf Hl).
Qed.

Lemma ranges_to_mask_overflow_independent_witness :
  exists m m' ov ov',
    ranges_to_mask [100; 150; 200]%float [(50, 150); (150, 200)]%float
      None (Scalar 0) false true = Ok (m, ov) /\
    ranges_to_mask [100; 150; 200]%float [(50, 150); (150, 200)]%float
      (Some [true; true; true]) (Scalar 0) true false = Ok (m', ov') /\
    ov = ov'.
Proof.
  eexists _, _, _, _.
  split; [vm_compute; reflexivity|]. split; [vm_compute; reflexivity|].
  apply (ranges_to_mask_overflow_independent [100; 150; 200]%float
           [(50, 150); (150, 200)]%float (Scalar 0)
           None false true [false; true; true] [0]
           (Some [true; true; true]) true false [true; false; false] [0]);
    vm_compute; reflexivity.
Defined.

(** ** How masks of ranges combine *)

(** Two masks of one length with the same true positions are equal. *)
Lemma mask_ext (a b : list bool) :
  length a = length b ->
  (forall j, a !! j = Some true <-> b !! j = Some true) ->
  a = b.
Proof.
  revert b. induction a as [|u a IH]; intros [|v b] Hlen Hj; simpl in *; try done.
  f_equal.
  - specialize (Hj 0). simpl in Hj. destruct u, v; try done.
    + destruct Hj as [Hj _]. by specialize (Hj eq_refl).
    + destruct Hj as [_ Hj]. by specialize (Hj eq_refl).
  - apply IH; [lia|]. intros j. apply (Hj (S j)).
Qed.

Lemma full_false_lookup (n j : nat) : Np.full n false !! j <> Some true.
Proof. unfold Np.full. intros [? _]%lookup_replicate. done. Qed.

Lemma full_length {A : Type} (n : nat) (v : A) : length (Np.full n v) = n.
Proof. unfold Np.full. apply length_replicate. Qed.

Lemma overflow_from_shift w0 w1 d k ranges :
  forall i,
    overflow_from w0 w1 d (k + i) ranges
    = map (fun j => k + j) (overflow_from w0 w1 d i ranges).
Proof.
  induction ranges as [|r rest IH]; intros i; simpl; [done|].
  replace (S (k + i)) with (k + S i) by lia.
  destruct (overflows w0 w1 d r); simpl; by rewrite IH.
Qed.

Lemma overflow_from_app w0 w1 d r1 r2 :
  forall i,
    overflow_from w0 w1 d i (r1 ++ r2)
    = overflow_from w0 w1 d i r1 ++ overflow_from w0 w1 d (length r1 + i) r2.
Proof.
  induction r1 as [|r rest IH]; intros i; simpl; [done|].
  replace (S (length rest + i)) with (length rest + S i) by lia.
  destruct (overflows w0 w1 d r); simpl; by rewrite IH.
Qed.

(** X4: omitting the overflowing ranges can only clear points of the mask,
    and changes nothing when no range overflows. *)
Theorem ranges_to_mask_omit_shrinks wave ranges dlambda strict m1 ov1 m2 ov2 :
  ranges_to_mask wave ranges None dlambda strict true = Ok (m1, ov1) ->
  ranges_to_mask wave ranges None dlambda strict false = Ok (m2, ov2) ->
  (forall j, m1 !! j = Some true -> m2 !! j = Some true) /\
  (ov1 = [] -> m1 = m2).
Proof.
  intros H1 H2.
  destruct (ranges_to_mask_ok_cases _ _ _ _ _ _ _ _ H1) as [->|(w0 & w1 & Hf & Hl)].
  { injection H1 as <- <-. injection H2 as <- <-. done. }
  rewrite (ranges_to_mask_closed _ _ _ _ _ w0 w1 Hf Hl) in H1.
  rewrite (ranges_to_mask_closed _ _ _ _ _ w0 w1 Hf Hl) in H2.
  injection H1 as <- <-. injection H2 as <- <-.
  set (d := dlambda_pair dlambda). split.
  - intros j. rewrite !merge_ranges_lookup by apply full_length.
    intros [H|(i & r & wj & Hr & _ & Hw & Hin)]; [by left|].
    right. exists i, r, wj. done.
  - intros Hov. apply mask_ext.
    { rewrite !merge_ranges_length; by rewrite ?full_length. }
    intros j. rewrite !merge_ranges_lookup by apply full_length.
    split; intros [H|(i & r & wj & Hr & Hc & Hw & Hin)]; try (by left);
      right; exists i, r, wj; repeat split; try done.
    intros _. destruct (overflows w0 w1 d r) eqn:Eo; [|done].
    assert (Hi : i ∈ overflow_from w0 w1 d 0 ranges).
    { apply overflow_from_elem. exists r. rewrite Nat.sub_0_r.
      split; [lia|done]. }
    rewrite Hov in Hi. by apply elem_of_nil in Hi.
Qed.

Lemma ranges_to_mask_omit_shrinks_witness :
  exists m1 ov1 m2 ov2,
    ranges_to_mask [100; 150; 200]%float [(50, 150); (150, 200)]%float
      None (Scalar 0) false true = Ok (m1, ov1) /\
    ranges_to_mask [100; 150; 200]%float [(50, 150); (150, 200)]%float
      None (Scalar 0) false false = Ok (m2, ov2) /\
    (forall j, m1 !! j = Some true -> m2 !! j = Some true) /\
    (ov1 = [] -> m1 = m2).
Proof.
  eexists _, _, _, _.
  split; [vm_compute; reflexivity|]. split; [vm_compute; reflexivity|].
  apply (ranges_to_mask_omit_shrinks [100; 150; 200]%float
           [(50, 150); (150, 200)]%float (Scalar 0) false
           [false; true; true] [0] [true; true; true] [0]);
    vm_compute; reflexivity.
Defined.

(** X5: the mask of two lists of ranges put together is the or of their
    masks, and the overflow list is the first list's followed by the second
    list's shifted by the number of ranges of the first. *)
Theorem ranges_to_mask_app wave r1 r2 dlambda strict omit m1 ov1 m2 ov2 :
  ranges_to_mask wave r1 None dlambda strict omit = Ok (m1, ov1) ->
  ranges_to_mask wave r2 None dlambda strict omit = Ok (m2, ov2) ->
  ranges_to_mask wave (r1 ++ r2) None dlambda strict omit
  = Ok (Np.or_ m1 m2, ov1 ++ map (fun i => length r1 + i) ov2).
Proof.
  intros H1 H2.
  destruct wave as [|w wave'] eqn:Ewave.
  { destruct r1; [|done]. destruct r2; [|done].
    injection H1 as <- <-. injection H2 as <- <-. done. }
  rewrite <- Ewave in *.
  assert (Hf : Np.first wave = Ok w) by by rewrite Ewave.
  destruct (last_nonempty wave) as [w1 Hl]; [by rewrite Ewave|].
  rewrite (ranges_to_mask_closed _ _ _ _ _ w w1 Hf Hl) in H1.
  rewrite (ranges_to_mask_closed _ _ _ _ _ w w1 Hf Hl) in H2.
  rewrite (ranges_to_mask_closed _ _ _ _ _ w w1 Hf Hl).
  injection H1 as <- <-. injection H2 as <- <-.
  set (d := dlambda_pair dlambda).
  f_equal. f_equal.
  - apply mask_ext.
    { rewrite or_length; rewrite !merge_ranges_length; by rewrite ?full_length. }
    intros j.
    rewrite or_lookup
      by (rewrite !merge_ranges_length; by rewrite ?full_length).
    unfold merge_ranges at 1. rewrite fold_left_app.
    fold (merge_ranges wave w w1 d strict omit r1 (Np.full (length wave) false)).
    fold (merge_ranges wave w w1 d strict omit r2
            (merge_ranges wave w w1 d strict omit r1 (Np.full (length wave) false))).
    rewrite (merge_ranges_lookup _ _ _ _ _ _ r2)
      by (apply merge_ranges_length, full_length).
    rewrite (merge_ranges_lookup _ _ _ _ _ _ r2 (Np.full _ _))
      by apply full_length.
    pose proof (full_false_lookup (length wave) j). tauto.
  - rewrite overflow_from_app. f_equal.
    by rewrite overflow_from_shift.
Qed.

Lemma ranges_to_mask_app_witness :
  ranges_to_mask [100; 150; 200]%float ([(50, 120)] ++ [(180, 250)])%float
    None (Scalar 0) false false
  = Ok (Np.or_ [true; false; false] [false; false; true],
        [0] ++ map (fun i => length [(50, 120)%float] + i) [0]).
Proof.
  apply (ranges_to_mask_app [100; 150; 200]%float [(50, 120)]%float
           [(180, 250)]%float (Scalar 0) false false);
    vm_compute; reflexivity.
Defined.

(** X6: the mask does not depend on the order of the ranges. *)
Theorem ranges_to_mask_permutation wave ranges ranges' mask dlambda strict omit
    m ov :
  ranges ≡ₚ ranges' ->
  ranges_to_mask wave ranges mask dlambda strict omit = Ok (m, ov) ->
  exists ov',
    ranges_to_mask wave ranges' mask dlambda strict omit = Ok (m, ov').
Proof.
  intros Hp Hrun.
  destruct (ranges_to_mask_ok_cases _ _ _ _ _ _ _ _ Hrun)
    as [->|(w0 & w1 & Hf & Hl)].
  { apply Permutation_nil_l in Hp as <-. eauto. }
  unfold ranges_to_mask in *.
  rewrite (ranges_to_mask_loop_spec _ _ _ _ w0 w1 _ Hf Hl) in Hrun.
  rewrite (ranges_to_mask_loop_spec _ _ _ _ w0 w1 _ Hf Hl).
  set (d := dlambda_pair dlambda) in *.
  assert (Heq : merge_ranges wave w0 w1 d strict omit ranges'
                  (Np.full (length wave) false)
                = merge_ranges wave w0 w1 d strict omit ranges
                  (Np.full (length wave) false)).
  { apply mask_ext.
    { rewrite !merge_ranges_length; by rewrite ?full_length. }
    intros j. rewrite !merge_ranges_lookup by apply full_length.
    split; intros [H|(i & r & wj & Hr & Hrest)]; try (by left); right.
    - assert (Hin : r ∈ ranges).
      { rewrite Hp. apply list_elem_of_lookup. eauto. }
      apply list_elem_of_lookup in Hin as [i' Hi']. exists i', r, wj.
      tauto.
    - assert (Hin : r ∈ ranges').
      { rewrite <- Hp. apply list_elem_of_lookup. eauto. }
      apply list_elem_of_lookup in Hin as [i' Hi']. exists i', r, wj.
      tauto. }
  rewrite Heq. simpl in *.
  destruct mask as [mk|].
  - destruct (Np.iand _ mk); simpl in *; [|done].
    injection Hrun as <- _. eauto.
  - injection Hrun as <- _. eauto.
Qed.

Lemma ranges_to_mask_permutation_witness :
  exists ov',
    ranges_to_mask [100; 150; 200]%float [(180, 250); (50, 120)]%float
      None (Scalar 0) false false = Ok ([true; false; true], ov').
Proof.
  apply (ranges_to_mask_permutation [100; 150; 200]%float
           [(50, 120); (180, 250)]%float [(180, 250); (50, 120)]%float
           None (Scalar 0) false false [true; false; true] [0; 1]).
  - apply perm_swap.
  - vm_compute. reflexivity.
Defined.

(** ** [limits_to_ranges] and [limits_to_masks] *)

(** X7: range [i] of [limits_to_ranges] is the pair of the limits [i] and
    [i + 1], and there is no other range. *)
Theorem limits_to_ranges_lookup {A : Type} (limits : list A) (i : nat) (a b : A) :
  limits_to_ranges limits !! i = Some (a, b) <->
  limits !! i = Some a /\ limits !! S i = Some b.
Proof.
  destruct limits as [|l0 rest]; [simpl; rewrite !lookup_nil; by intuition|].
  revert l0 i. induction rest as [|l1 rest IH]; intros l0 i.
  - simpl. rewrite !lookup_nil. split; [done|]. by intros [_ ?].
  - change (limits_to_ranges (l0 :: l1 :: rest))
      with ((l0, l1) :: limits_to_ranges (l1 :: rest)).
    destruct i as [|i].
    + simpl. split; [by intros [= -> ->] | by intros [[= ->] [= ->]]].
    + change (((l0, l1) :: limits_to_ranges (l1 :: rest)) !! S i)
        with (limits_to_ranges (l1 :: rest) !! i).
      rewrite IH. done.
Qed.

(** X8: with fewer than two limits [limits_to_masks] returns three empty
    lists without reading the vector; with two or more, an empty vector
    raises IndexError. *)
Theorem limits_to_masks_edges limits :
  (length limits <= 1 ->
   forall wave mask dlambda strict omit,
     limits_to_masks wave limits mask dlambda strict omit = Ok ([], [], [])) /\
  (2 <= length limits ->
   forall mask dlambda strict omit,
     limits_to_masks [] limits mask dlambda strict omit = Raise IndexError).
Proof.
  split.
  - intros Hn wave mask dlambda strict omit.
    destruct limits as [|l0 [|l1 rest]]; simpl in Hn; try lia; done.
  - intros Hn mask dlambda strict omit.
    destruct limits as [|l0 [|l1 rest]]; simpl in Hn; try lia.
    unfold limits_to_masks. simpl. by destruct l0, l1.
Qed.

Lemma limits_to_masks_edges_witness :
  limits_to_masks [] [Some 1%float] None (Scalar 0) false false
    = Ok ([], [], []) /\
  limits_to_masks [] [None; None] None (Scalar 0) false false
    = Raise IndexError.
Proof.
  split.
  - apply (proj1 (limits_to_masks_edges [Some 1%float])). simpl. lia.
  - apply (proj2 (limits_to_masks_edges [None; None])). simpl. lia.
Defined.

(** The result of [limits_to_masks], in closed form. *)
Lemma limits_to_masks_closed wave limits mask dlambda strict omit w0 w1 :
  Np.first wave = Ok w0 -> Np.last wave = Ok w1 ->
  (forall mk, mask = Some mk -> length mk = length wave) ->
  let d := dlambda_pair dlambda in
  let ivs := intervals w0 w1 limits in
  let masks := map (interval_mask wave mask d strict) (kept w0 w1 d omit ivs) in
  limits_to_masks wave limits mask dlambda strict omit
  = Ok (masks, map (fun m => actual_range (Np.select wave m)) masks,
        overflow_from w0 w1 d 0 ivs).
Proof.
  intros H0 H1 Hmask d ivs masks. unfold limits_to_masks.
  destruct limits as [|l0 rest]; [done|].
  by rewrite (limits_to_masks_loop_spec wave mask _ strict omit w0 w1 H0 H1 Hmask).
Qed.

Lemma or_full_false (n : nat) (m : list bool) :
  length m = n -> Np.or_ (Np.full n false) m = m.
Proof.
  intros <-. induction m as [|b m IH]; simpl; [done|]. f_equal. apply IH.
Qed.

Lemma merge_ranges_fold wave w0 w1 d strict omit ivs :
  forall acc,
    merge_ranges wave w0 w1 d strict omit ivs acc
    = fold_left Np.or_
        (map (range_mask wave d strict) (kept w0 w1 d omit ivs)) acc.
Proof.
  unfold merge_ranges, kept.
  induction ivs as [|r ivs IH]; intros acc; simpl; [done|].
  destruct (overflows w0 w1 d r && omit); simpl; apply IH.
Qed.

(** X9: the masks of [limits_to_masks] or-ed together are the mask that
    [ranges_to_mask] returns for the intervals between the limits, and the
    two overflow lists are the same. *)
Theorem limits_to_masks_or wave limits dlambda strict omit w0 w1
    masks ranges ov :
  Np.first wave = Ok w0 -> Np.last wave = Ok w1 ->
  limits_to_masks wave limits None dlambda strict omit = Ok (masks, ranges, ov) ->
  ranges_to_mask wave (intervals w0 w1 limits) None dlambda strict omit
  = Ok (fold_left Np.or_ masks (Np.full (length wave) false), ov).
Proof.
  intros H0 H1 Hrun.
  rewrite (limits_to_masks_closed _ _ _ _ _ _ w0 w1 H0 H1) in Hrun by done.
  injection Hrun as <- _ <-.
  rewrite (ranges_to_mask_closed _ _ _ _ _ w0 w1 H0 H1).
  by rewrite merge_ranges_fold.
Qed.

Lemma limits_to_masks_or_witness :
  ranges_to_mask [100; 150; 200]%float
    (intervals 100 200 [Some 100; Some 120; None]%float) None (Scalar 0)
    false false
  = Ok (fold_left Np.or_ [[true; false; false]; [false; true; true]]
          (Np.full (length [100; 150; 200]%float) false), []).
Proof.
  apply (limits_to_masks_or [100; 150; 200]%float
           [Some 100; Some 120; None]%float (Scalar 0) false false
           100%float 200%float _ [(100, 100); (150, 200)]%float);
    vm_compute; reflexivity.
Defined.

(** X10: without [omit_overflow], mask [i] of [limits_to_masks] is the mask
    that [ranges_to_mask] returns for interval [i] alone, with the same
    input mask, buffer and comparison. *)
Theorem limits_to_masks_each wave limits mask dlambda strict w0 w1
    masks ranges ov i r :
  Np.first wave = Ok w0 -> Np.last wave = Ok w1 ->
  (forall mk, mask = Some mk -> length mk = length wave) ->
  limits_to_masks wave limits mask dlambda strict false = Ok (masks, ranges, ov) ->
  intervals w0 w1 limits !! i = Some r ->
  exists m ovi,
    masks !! i = Some m /\
    ranges_to_mask wave [r] mask dlambda strict false = Ok (m, ovi).
Proof.
  intros H0 H1 Hmask Hrun Hi.
  rewrite (limits_to_masks_closed _ _ _ _ _ _ w0 w1 H0 H1 Hmask) in Hrun.
  injection Hrun as <- _ _. rewrite kept_all.
  exists (interval_mask wave mask (dlambda_pair dlambda) strict r).
  eexists. split.
  - by rewrite list_lookup_fmap, Hi.
  - unfold ranges_to_mask.
    rewrite (ranges_to_mask_loop_spec _ _ _ _ w0 w1 _ H0 H1).
    unfold merge_ranges. simpl. rewrite andb_false_r.
    rewrite or_full_false by apply range_mask_length. unfold interval_mask.
    destruct mask as [mk|]; [|done].
    rewrite iand_same_length; [done|].
    rewrite range_mask_length. by apply Hmask.
Qed.

Lemma limits_to_masks_each_witness :
  exists m ovi,
    [[true; false; false]; [false; true; true]] !! 1 = Some m /\
    ranges_to_mask [100; 150; 200]%float [(120, 200)%float] None (Scalar 0)
      false false = Ok (m, ovi).
Proof.
  apply (limits_to_masks_each [100; 150; 200]%float
           [Some 100; Some 120; None]%float None (Scalar 0) false
           100%float 200%float _ [(100, 100); (150, 200)]%float [] 1);
    try (vm_compute; reflexivity). done.
Defined.

Lemma select_nil {A : Type} (a : list A) (m : list bool) :
  length m = length a -> Np.select a m = [] -> forall j, m !! j <> Some true.
Proof.
  revert m. induction a as [|v a IH]; intros [|b m] Hlen Hs j; simpl in *;
    try done.
  destruct b; [done|]. destruct j as [|j]; simpl; [done|].
  apply IH; [lia | done].
Qed.

Lemma select_head {A : Type} (a : list A) (m : list bool) v rest :
  length m = length a -> Np.select a m = v :: rest ->
  exists ja, a !! ja = Some v /\ m !! ja = Some true /\
             forall j, m !! j = Some true -> ja <= j.
Proof.
  revert m. induction a as [|u a IH]; intros [|b m] Hlen Hs; simpl in *;
    try done.
  destruct b.
  - injection Hs as -> _. exists 0. repeat split; try done. intros; lia.
  - destruct (IH m) as (ja & Ha & Hm & Hmin); [lia | done |].
    exists (S ja). repeat split; try done.
    intros [|j] Hj; simpl in Hj; [done|]. apply Hmin in Hj. lia.
Qed.

Lemma select_last {A : Type} (a : list A) (m : list bool) v rest d :
  length m = length a -> Np.select a m = v :: rest ->
  exists jb, a !! jb = Some (List.last (v :: rest) d) /\ m !! jb = Some true /\
             forall j, m !! j = Some true -> j <= jb.
Proof.
  revert m v rest. induction a as [|u a IH]; intros [|b m] v rest Hlen Hs;
    simpl in Hlen, Hs; try done.
  destruct (Np.select a m) as [|v' rest'] eqn:Hsel.
  - destruct b; [|done]. injection Hs as <- <-.
    exists 0. repeat split; try done.
    intros [|j] Hj; [lia|]. simpl in Hj.
    by apply (select_nil a m) in Hj; [|lia|].
  - destruct (IH m v' rest') as (jb & Ha & Hm & Hmax); [lia | done |].
    exists (S jb).
    assert (Hlast : List.last (v :: rest) d = List.last (v' :: rest') d).
    { destruct b; injection Hs as <- <-; [|done].
      change (List.last (u :: v' :: rest') d) with (List.last (v' :: rest') d).
      done. }
    rewrite Hlast. repeat split; try done.
    intros [|j] Hj; [lia|]. simpl in Hj. apply Hmax in Hj. lia.
Qed.

Lemma actual_range_selected (wave : list float) (m : list bool) :
  length m = length wave ->
  first_last_selected wave m (actual_range (Np.select wave m)).
Proof.
  intros Hlen. unfold first_last_selected, actual_range.
  destruct (Np.select wave m) as [|v rest] eqn:Hsel.
  - left. split; [|done]. by apply (select_nil wave).
  - right.
    destruct (select_head wave m v rest Hlen Hsel) as (ja & Ha & Hma & Hmin).
    destruct (select_last wave m v rest v Hlen Hsel) as (jb & Hb & Hmb & Hmax).
    exists ja, jb. simpl. repeat split; try done; auto.
Qed.

(** Every mask returned so far has the vector's length and comes with its
    actual range. *)
Lemma limits_to_masks_loop_ranges wave mask d strict omit rest :
  forall l0 i masks ranges ov masks' ranges' ov',
    Forall2 (fun m rg => length m = length wave /\
                         rg = actual_range (Np.select wave m)) masks ranges ->
    limits_to_masks_loop wave mask d strict omit i (l0 :: rest) masks ranges ov
      = Ok (masks', ranges', ov') ->
    Forall2 (fun m rg => length m = length wave /\
                         rg = actual_range (Np.select wave m)) masks' ranges'.
Proof.
  induction rest as [|l1 rest IH]; intros l0 i masks ranges ov masks' ranges' ov' Hinv.
  - simpl. by intros [= <- <- _].
  - change (limits_to_masks_loop wave mask d strict omit i (l0 :: l1 :: rest)
              masks ranges ov)
      with (do a <- lower_limit wave l0;
            do b <- upper_limit wave l1;
            do o <- overflow_test wave d (a, b);
            let ov' := if o then ov ++ [i] else ov in
            if o && omit
            then limits_to_masks_loop wave mask d strict omit (S i) (l1 :: rest)
                   masks ranges ov'
            else
              let m := range_mask wave d strict (a, b) in
              do m <- match mask with
                      | None => Ok m
                      | Some mask => Np.iand m mask
                      end;
              do w <- Np.index wave m;
              limits_to_masks_loop wave mask d strict omit (S i) (l1 :: rest)
                (masks ++ [m]) (ranges ++ [actual_range w]) ov').
    destruct (lower_limit wave l0) as [a|]; [|done]. rewrite bind_ok.
    destruct (upper_limit wave l1) as [b|]; [|done]. rewrite bind_ok.
    destruct (overflow_test wave d (a, b)) as [o|]; [|done]. rewrite bind_ok.
    cbv zeta. destruct (o && omit); [by apply IH|].
    destruct (match mask with
              | Some mask0 => Np.iand (range_mask wave d strict (a, b)) mask0
              | None => Ok (range_mask wave d strict (a, b))
              end) as [m|] eqn:Hm; [|done].
    rewrite bind_ok.
    assert (Hlen : length m = length wave).
    { destruct mask as [mk|].
      - apply iand_length in Hm. by rewrite Hm, range_mask_length.
      - injection Hm as <-. apply range_mask_length. }
    unfold Np.index. rewrite Hlen, Nat.eqb_refl, bind_ok.
    apply IH. apply Forall2_app; [done|]. by constructor.
Qed.

(** X11: whenever [limits_to_masks] returns, every mask has the length of
    the vector, and the range returned with it is [(nan, nan)] when the
    mask selects nothing and otherwise holds the wavelengths at the first
    and at the last true position of the mask. *)
Theorem limits_to_masks_actual_ranges wave limits mask dlambda strict omit
    masks ranges ov k m rg :
  limits_to_masks wave limits mask dlambda strict omit = Ok (masks, ranges, ov) ->
  masks !! k = Some m -> ranges !! k = Some rg ->
  length m = length wave /\
  (((forall j, m !! j <> Some true) /\ rg = (nan, nan)) \/
   (exists ja jb,
      ja <= jb /\
      wave !! ja = Some rg.1 /\ m !! ja = Some true /\
      wave !! jb = Some rg.2 /\ m !! jb = Some true /\
      forall j, m !! j = Some true -> ja <= j <= jb)).
Proof.
  intros Hrun Hm Hrg. unfold limits_to_masks in Hrun.
  destruct limits as [|l0 rest].
  { injection Hrun as <- _ _. by rewrite lookup_nil in Hm. }
  apply limits_to_masks_loop_ranges in Hrun; [|constructor].
  destruct (Forall2_lookup_lr _ _ _ _ _ _ Hrun Hm Hrg) as [Hlen ->].
  split; [done|]. by apply actual_range_selected.
Qed.

Lemma limits_to_masks_actual_ranges_witness :
  length [false; true; true] = length [100; 150; 200]%float /\
  (((forall j, [false; true; true] !! j <> Some true) /\
    (150, 200)%float = (nan, nan)) \/
   (exists ja jb,
      ja <= jb /\
      [100; 150; 200]%float !! ja = Some 150%float /\
      [false; true; true] !! ja = Some true /\
      [100; 150; 200]%float !! jb = Some 200%float /\
      [false; true; true] !! jb = Some true /\
      forall j, [false; true; true] !! j = Some true -> ja <= j <= jb)).
Proof.
  apply (limits_to_masks_actual_ranges [100; 150; 200]%float
           [Some 100; Some 120; None]%float None (Scalar 0) false false
           [[true; false; false]; [false; true; true]]
           [(100, 100); (150, 200)]%float [] 1 [false; true; true]
           (150, 200)%float);
    vm_compute; reflexivity.
Defined.

(** ** [init_wave] and the cache *)

(** X12: on an object that has a wavelength vector cached, and a mask for
    each configured list of ranges, [init_wave] without [force] returns and
    changes nothing, whatever the vector it is passed. *)
Theorem init_wave_cached_noop {Finder Trace : Type}
    (self : ContinuumModel Finder Trace) (w : list float) (omit : bool) :
  wave self <> None ->
  (include_ranges self <> None -> include_mask self <> None) ->
  (exclude_ranges self <> None -> exclude_mask self <> None) ->
  init_wave self w false omit = (self, Ok ()).
Proof.
  intros Hw Hi He.
  destruct self as [v tr cf mi lg ir im io er em eo wv].
  unfold init_wave; simpl in *.
  destruct wv as [w'|], ir as [ir|], im as [im|], er as [er|], em as [em|];
    simpl; try done; try (by destruct Hi); by destruct He.
Qed.

Lemma init_wave_cached_noop_witness :
  let self : ContinuumModel unit unit :=
    (init_wave (set_ranges (init None None None) (Some [(50, 150)]%float) None)
       [100; 150; 200]%float true false).1 in
  init_wave self [1; 2]%float false true = (self, Ok ()).
Proof.
  apply init_wave_cached_noop; vm_compute; congruence.
Defined.

(** X13: a forced [init_wave] on a non-empty vector overrides what an
    earlier call cached: the object it leaves is the one it would have left
    without that earlier call. *)
Theorem init_wave_forced_overrides {Finder Trace : Type}
    (self : ContinuumModel Finder Trace) (w1 w2 : list float)
    (force1 omit1 omit2 : bool) :
  w2 <> [] ->
  init_wave (init_wave self w1 force1 omit1).1 w2 true omit2
  = init_wave self w2 true omit2.
Proof.
  intros Hw.
  assert (Hr : forall ranges, exists m ov,
            ranges_to_mask w2 ranges None (Scalar 0) false omit2 = Ok (m, ov))
    by (intros r; destruct (ranges_to_mask_total w2 r (Scalar 0) false omit2 Hw)
          as (m & ov & Hm & _); eauto).
  destruct self as [v tr cf mi lg ir im io er em eo wv].
  unfold init_wave; simpl.
  destruct force1, wv as [w'|], ir as [ir|], im as [im|], er as [er|],
    em as [em|]; simpl;
    repeat match goal with
      | |- context [ranges_to_mask w1 ?r None (Scalar 0) false omit1] =>
          destruct (ranges_to_mask w1 r None (Scalar 0) false omit1)
            as [[? ?]|]; simpl
      end;
    repeat match goal with
      | |- context [ranges_to_mask w2 ?r None (Scalar 0) false omit2] =>
          let E := fresh "E" in
          destruct (Hr r) as (? & ? & E); rewrite E; clear E; simpl
      end;
    reflexivity.
Qed.

Lemma init_wave_forced_overrides_witness :
  let self : ContinuumModel unit unit :=
    set_ranges (init None None None) (Some [(50, 150)]%float) None in
  init_wave (init_wave self [1; 2]%float false true).1
    [100; 150; 200]%float true false
  = init_wave self [100; 150; 200]%float true false.
Proof.
  apply init_wave_forced_overrides. discriminate.
Defined.

(** X14: [init_wave] writes to the cache only: the version, the trace, the
    finder, [max_iter], the flux mode and the configured ranges are those of
    the object before the call, also when the call raises. *)
Theorem init_wave_frame {Finder Trace : Type}
    (self : ContinuumModel Finder Trace) (w : list float) (force omit : bool) :
  let self' := (init_wave self w force omit).1 in
  version self' = version self /\
  trace self' = trace self /\
  continuum_finder self' = continuum_finder self /\
  max_iter self' = max_iter self /\
  use_log_flux self' = use_log_flux self /\
  include_ranges self' = include_ranges self /\
  exclude_ranges self' = exclude_ranges self.
Proof.
  destruct self as [v tr cf mi lg ir im io er em eo wv].
  unfold init_wave; simpl.
  destruct force, wv as [w'|], ir as [ir|], im as [im|], er as [er|],
    em as [em|]; simpl;
    repeat match goal with
      | |- context [ranges_to_mask w ?r None (Scalar 0) false omit] =>
          destruct (ranges_to_mask w r None (Scalar 0) false omit)
            as [[? ?]|]; simpl
      end;
    done.
Qed.

(** ** More on [fit_function] *)

Section LoopMore.
Context {K E ID : Type}.
Context (self : ContinuumModel (@ContinuumFinder E) (@TraceHook E ID))
        (id : ID) (func : @FittableFunction K E)
        (x y : list float) (w : option (list float)) (kwargs : K).

Lemma fit_round_without_object_finder p0 s :
  continuum_finder self = None ->
  fit_round self func x y w p0 kwargs s
  = fit_round self func x y w None kwargs s.
Proof.
  intros Hf. unfold fit_round. rewrite Hf.
  by destruct (Nat.eqb (st_iter s) 0), p0.
Qed.

Lemma loop_without_object_finder p0 cf fuel :
  continuum_finder self = None ->
  forall s,
    fit_function_loop self id func x y w p0 cf kwargs fuel s
    = fit_function_loop self id func x y w None cf kwargs fuel s.
Proof.
  intros Hf. induction fuel as [|fuel IH]; intros s; simpl; [done|].
  unfold fit_function_body.
  rewrite (fit_round_without_object_finder p0 s Hf).
  destruct (fit_round self func x y w None kwargs s) as [[[p e] n]|]; [|done].
  destruct cf as [f|]; [|done].
  destruct (find_round _ _ _ _ _ _ _ _ _) as [s'|s'|e' s'];
    [apply IH | done | done].
Qed.

(** One round that goes on: the round counter goes up by one, and so does
    the number of fits unless the round took [p0]. *)
Lemma body_continue_counters p0 cf s s' :
  fit_function_body self id func x y w p0 cf kwargs s = Continue s' ->
  st_iter s' = S (st_iter s) /\
  st_fits s' = (if Nat.eqb (st_iter s) 0 && reuses_p0 self p0
                then st_fits s else S (st_fits s)) /\
  st_success s' = true /\ is_Some (st_params s').
Proof.
  unfold fit_function_body.
  destruct (fit_round _ _ _ _ _ _ _ s) as [[[p e] n]|] eqn:Hfit; [|done].
  apply fit_round_fits in Hfit.
  destruct cf as [f|]; [|done].
  unfold find_round.
  destruct (find_call _ _ _ _ _ _ _ _) as [reply e2].
  destruct (rebind_mask s reply) as [l σ'].
  destruct (negb _); [done|]. destruct (Nat.ltb _ _); [done|].
  intros [= <-]. simpl. by eauto.
Qed.

Lemma rounds_counters_later p0 cf k :
  forall s s',
    1 <= st_iter s ->
    rounds self id func x y w p0 cf kwargs k s = Some s' ->
    st_iter s' = st_iter s + k /\ st_fits s' = st_fits s + k.
Proof.
  induction k as [|k IH]; intros s s' Hi; simpl.
  - intros [= <-]. lia.
  - destruct (fit_function_body _ _ _ _ _ _ _ _ _ s) as [s1|s1|e s1] eqn:Hb;
      try done.
    apply body_continue_counters in Hb as (Hi1 & Hf1 & _).
    intros Hk. apply IH in Hk as [-> ->]; [|lia].
    rewrite Hi1, Hf1.
    replace (Nat.eqb (st_iter s) 0) with false
      by (symmetry; apply Nat.eqb_neq; lia).
    simpl. lia.
Qed.

Lemma index_ok {A : Type} (a : list A) (m : list bool) :
  length m = length a -> Np.index a m = Ok (Np.select a m).
Proof. intros Hlen. unfold Np.index. by rewrite Hlen, Nat.eqb_refl. Qed.

(** The fit step of a round on an object without a finder, on arrays of the
    length of the mask. *)
Lemma fit_round_fit p0 s :
  let m := st_store s !!! st_mask s in
  continuum_finder self = None ->
  length m = length x -> length y = length x ->
  (forall w', w = Some w' -> length w' = length x) ->
  fit_round self func x y w p0 kwargs s
  = Ok (let '(p, e) := fit func (Np.select x m) (Np.select y m)
                         ((fun w' => Np.select w' m) <$> w)
                         (st_params s) kwargs (st_env s) in
        (p, e, S (st_fits s))).
Proof.
  intros m Hf Hx Hy Hw.
  rewrite (fit_round_without_object_finder p0 s Hf). unfold fit_round.
  fold m.
  assert (Hr : (do xm <- Np.index x m;
                do ym <- Np.index y m;
                do wm <- match w with
                         | Some w0 => do v <- Np.index w0 m; Ok (Some v)
                         | None => Ok None
                         end;
                let '(p, e) := fit func xm ym wm (st_params s) kwargs (st_env s) in
                Ok (p, e, S (st_fits s)))
               = Ok (let '(p, e) := fit func (Np.select x m) (Np.select y m)
                                      ((fun w' => Np.select w' m) <$> w)
                                      (st_params s) kwargs (st_env s) in
                     (p, e, S (st_fits s)))).
  { rewrite !index_ok by congruence. rewrite !bind_ok.
    destruct w as [w'|]; simpl.
    - rewrite index_ok by (rewrite (Hw w' eq_refl); congruence).
      simpl. by destruct (fit _ _ _ _ _ _ _).
    - by destruct (fit _ _ _ _ _ _ _). }
  by destruct (Nat.eqb (st_iter s) 0).
Qed.

End LoopMore.

(** X15: when the object itself has no finder, [p0] is never used: the call
    does what it does without a [p0], also when a finder is passed as an
    argument. *)
Theorem fit_function_p0_unused {K E ID : Type}
    (self : ContinuumModel (@ContinuumFinder E) (@TraceHook E ID)) (id : ID)
    (func : @FittableFunction K E) (x y : list float)
    (w p0 : option (list float)) (mask : option nat)
    (cf : option (@ContinuumFinder E)) (kwargs : K)
    (σ : gmap nat (list bool)) (env : E) (fuel : nat) :
  continuum_finder self = None ->
  fit_function fuel self id func x y w p0 mask cf kwargs σ env
  = fit_function fuel self id func x y w None mask cf kwargs σ env.
Proof.
  intros Hf. unfold fit_function. by rewrite loop_without_object_finder.
Qed.

Lemma fit_function_p0_unused_witness :
  fit_function (ID:=unit) 3 (init None None None) tt const_func
    [1; 2]%float [1; 2]%float None (Some [7%float]) None (Some stop_finder)
    tt ∅ tt
  = fit_function (ID:=unit) 3 (init None None None) tt const_func
      [1; 2]%float [1; 2]%float None None None (Some stop_finder) tt ∅ tt.
Proof.
  apply (fit_function_p0_unused (init None None None)). reflexivity.
Defined.

(** X16: with no finder in effect and arrays of one length, the call makes
    one round: [func.fit] is called once, on the points the mask selects
    and with no initial parameters, and the call returns success with what
    [func.fit] returned. *)
Theorem fit_function_without_finder {K E ID : Type}
    (self : ContinuumModel (@ContinuumFinder E) (@TraceHook E ID)) (id : ID)
    (func : @FittableFunction K E) (x y : list float)
    (w p0 : option (list float)) (mask : option nat)
    (cf : option (@ContinuumFinder E)) (kwargs : K)
    (σ : gmap nat (list bool)) (env : E) :
  let m0 := initial_mask x mask σ in
  effective_finder self cf = None ->
  length m0 = length x -> length y = length x ->
  (forall w', w = Some w' -> length w' = length x) ->
  exists out,
    (forall fuel,
       fit_function (S fuel) self id func x y w p0 mask cf kwargs σ env
       = Some out) /\
    ret out = Ok (true,
                  Some (fit func (Np.select x m0) (Np.select y m0)
                          ((fun w' => Np.select w' m0) <$> w) None kwargs env).1) /\
    fit_calls out = 1.
Proof.
  intros m0 Hf Hx Hy Hw.
  assert (Hself : continuum_finder self = None).
  { unfold effective_finder in Hf. by destruct cf. }
  assert (Hm : st_store (initial_state x mask σ env)
                 !!! st_mask (initial_state x mask σ env) = m0).
  { unfold initial_state. simpl. by rewrite lookup_total_insert_eq. }
  pose proof (fit_round_fit self func x y w kwargs p0
                (initial_state x mask σ env) Hself) as Hfit.
  cbv zeta in Hfit. rewrite Hm in Hfit. specialize (Hfit Hx Hy Hw).
  unfold fit_function. rewrite Hf. simpl fit_function_loop.
  unfold fit_function_body. rewrite Hfit.
  change (st_params (initial_state x mask σ env)) with (@None (list float)).
  change (st_env (initial_state x mask σ env)) with env.
  destruct (fit func _ _ _ _ _ _) as [p e]. simpl.
  eexists. split; [intros fuel; reflexivity|]. done.
Qed.

Lemma fit_function_without_finder_witness :
  exists out,
    (forall fuel,
       fit_function (ID:=unit) (S fuel) (init None None None) tt const_func
         [1; 2]%float [3; 4]%float None (Some [7%float]) None None tt ∅ tt
       = Some out) /\
    ret out = Ok (true, Some [1; 2]%float) /\
    fit_calls out = 1.
Proof.
  apply (fit_function_without_finder (init None None None) tt const_func
           [1; 2]%float [3; 4]%float None (Some [7%float]) None None tt ∅ tt);
    try reflexivity. discriminate.
Defined.

(** X17: a mask that has not the length of [x] makes the first fit raise
    IndexError, before [func.fit] or any other collaborator is called
    (unless the first round takes [p0], which selects no points). *)
Theorem fit_function_mask_length_error {K E ID : Type}
    (self : ContinuumModel (@ContinuumFinder E) (@TraceHook E ID)) (id : ID)
    (func : @FittableFunction K E) (x y : list float)
    (w p0 : option (list float)) (mask : option nat)
    (cf : option (@ContinuumFinder E)) (kwargs : K)
    (σ : gmap nat (list bool)) (env : E) :
  length (initial_mask x mask σ) <> length x ->
  reuses_p0 self p0 = false ->
  exists out,
    (forall fuel,
       fit_function (S fuel) self id func x y w p0 mask cf kwargs σ env
       = Some out) /\
    ret out = Raise IndexError /\ fit_calls out = 0 /\ out_env out = env.
Proof.
  intros Hlen Hp0.
  assert (Hfit : fit_round self func x y w p0 kwargs (initial_state x mask σ env)
                 = Raise IndexError).
  { unfold fit_round, reuses_p0 in *.
    assert (Hm : st_store (initial_state x mask σ env)
                   !!! st_mask (initial_state x mask σ env)
                 = initial_mask x mask σ).
    { unfold initial_state. simpl. by rewrite lookup_total_insert_eq. }
    rewrite Hm. unfold Np.index.
    replace (Nat.eqb (length (initial_mask x mask σ)) (length x)) with false
      by (symmetry; by apply Nat.eqb_neq).
    simpl. by destruct p0, (continuum_finder self). }
  unfold fit_function. simpl fit_function_loop.
  unfold fit_function_body. rewrite Hfit. simpl.
  eexists. split; [intros fuel; reflexivity|]. done.
Qed.

Lemma fit_function_mask_length_error_witness :
  exists out,
    (forall fuel,
       fit_function (ID:=unit) (S fuel) (init (Some stop_finder) None None) tt
         const_func [1; 2]%float [3; 4]%float None None (Some 0) None tt
         {[0 := [true]]} tt = Some out) /\
    ret out = Raise IndexError /\ fit_calls out = 0 /\ out_env out = tt.
Proof.
  apply (fit_function_mask_length_error (init (Some stop_finder) None None) tt
           const_func [1; 2]%float [3; 4]%float None None (Some 0) None tt
           {[0 := [true]]} tt).
  - vm_compute. lia.
  - reflexivity.
Defined.

(** X18: a call that returns never returns the failure pair: the flag is
    true and the parameters are bound. *)
Theorem fit_function_never_fails {K E ID : Type}
    (self : ContinuumModel (@ContinuumFinder E) (@TraceHook E ID)) (id : ID)
    (func : @FittableFunction K E) (x y : list float)
    (w p0 : option (list float)) (mask : option nat)
    (cf : option (@ContinuumFinder E)) (kwargs : K)
    (σ : gmap nat (list bool)) (env : E) (fuel : nat) out b p :
  fit_function fuel self id func x y w p0 mask cf kwargs σ env = Some out ->
  ret out = Ok (b, p) ->
  b = true /\ exists params, p = Some params.
Proof.
  intros Hrun Hret.
  destruct (fit_function_returns_success self id func x y w p0 kwargs
              fuel mask cf σ env out b p Hrun Hret) as [Hb [params Hp]].
  eauto.
Qed.

Lemma fit_function_never_fails_witness :
  exists out,
    fit_function (ID:=unit) 1 (init (Some stop_finder) None None) tt const_func
      [1; 2]%float [1; 2]%float None (Some [7%float]) None None tt ∅ tt
      = Some out /\
    forall b p, ret out = Ok (b, p) -> b = true /\ exists params, p = Some params.
Proof.
  destruct (fit_function (ID:=unit) 1 (init (Some stop_finder) None None) tt
              const_func [1; 2]%float [1; 2]%float None (Some [7%float])
              None None tt ∅ tt) as [out|] eqn:Hrun;
    [|vm_compute in Hrun; discriminate].
  exists out. split; [reflexivity|]. intros b p Hret.
  exact (fit_function_never_fails (init (Some stop_finder) None None) tt
           const_func [1; 2]%float [1; 2]%float None (Some [7%float])
           None None tt ∅ tt 1 out b p Hrun Hret).
Defined.

(** X19: the state in which round [k] of a call is entered has the round
    counter at [k] (the [iter] that the finder is handed in that round), and
    [func.fit] has been called [k] times before it, or [k - 1] times when
    round 0 took [p0]. *)
Theorem fit_function_round_counters {K E ID : Type}
    (self : ContinuumModel (@ContinuumFinder E) (@TraceHook E ID)) (id : ID)
    (func : @FittableFunction K E) (x y : list float)
    (w p0 : option (list float)) (mask : option nat)
    (cf : option (@ContinuumFinder E)) (kwargs : K)
    (σ : gmap nat (list bool)) (env : E) (k : nat) (s : @loop_state E) :
  rounds self id func x y w p0 cf kwargs k (initial_state x mask σ env) = Some s ->
  st_iter s = k /\
  st_fits s = (if reuses_p0 self p0 then k - 1 else k).
Proof.
  destruct k as [|k]; simpl.
  - intros [= <-]. simpl. by destruct (reuses_p0 self p0).
  - destruct (fit_function_body _ _ _ _ _ _ _ _ _ _) as [s1|s1|e s1] eqn:Hb;
      try done.
    apply body_continue_counters in Hb as (Hi1 & Hf1 & _).
    simpl in Hi1, Hf1. intros Hk.
    apply rounds_counters_later in Hk as [-> ->]; [|lia].
    rewrite Hi1, Hf1. destruct (reuses_p0 self p0); lia.
Qed.

Lemma fit_function_round_counters_witness :
  exists s : @loop_state unit,
    rounds (ID:=unit) (init (Some more_finder) None None) tt const_func
      [1%float] [1%float] None (Some [7%float]) (Some more_finder) tt 3
      (initial_state [1%float] None ∅ tt) = Some s /\
    st_iter s = 3 /\ st_fits s = 2.
Proof.
  destruct (rounds (ID:=unit) (init (Some more_finder) None None) tt const_func
              [1%float] [1%float] None (Some [7%float]) (Some more_finder) tt 3
              (initial_state [1%float] None ∅ tt)) as [s|] eqn:Hk;
    [|vm_compute in Hk; discriminate].
  exists s. split; [done|].
  apply (fit_function_round_counters (init (Some more_finder) None None) tt
           const_func [1%float] [1%float] None (Some [7%float]) None
           (Some more_finder) tt ∅ tt 3 s Hk).
Defined.

(** ** The reverse transform on arrays *)

Lemma safe_exp_array exp (a : list float) :
  safe_exp exp (PyArray a)
  = Ok (PyArray (map (fun v => exp (if PrimFloat.ltb v 100 then v else nan)) a)).
Proof.
  unfold safe_exp. simpl. rewrite where_nan_same_length by by rewrite length_map.
  simpl. do 2 f_equal. induction a as [|v a IH]; simpl; [done|]. by rewrite IH.
Qed.

Lemma zip_with_map_l {A B C D : Type} (f : B -> C -> D) (g : A -> B)
    (l : list A) (k : list C) :
  zip_with f (map g l) k = zip_with (fun u v => f (g u) v) l k.
Proof.
  revert k. induction l as [|u l IH]; intros [|v k]; simpl; try done.
  by rewrite IH.
Qed.

(** X20: in log-flux mode, on a log-flux array and an uncertainty array of
    the same length, [transform_flux_reverse] returns, element by element,
    the flux [f = exp x] (of NaN where [x < 100] fails) and the uncertainty
    [f * sigma] where [f < 100], NaN elsewhere: the guard of the uncertainty
    is taken on the flux already transformed back, not on the log-flux. *)
Theorem transform_flux_reverse_arrays (exp : float -> float)
    {Finder Trace : Type} (self : ContinuumModel Finder Trace)
    (a s : list float) :
  length s = length a ->
  let self := set_use_log_flux self true in
  let f := map (fun v => exp (if PrimFloat.ltb v 100 then v else nan)) a in
  transform_flux_reverse exp self (PyArray a) PyNone = Ok (PyArray f, PyNone) /\
  transform_flux_reverse exp self (PyArray a) (PyArray s)
  = Ok (PyArray f,
        PyArray (zip_with (fun fi si => if PrimFloat.ltb fi 100
                                        then (fi * si)%float else nan) f s)).
Proof.
  intros Hlen self' f. unfold transform_flux_reverse. simpl use_log_flux.
  cbv iota. rewrite safe_exp_array. fold f. split; [done|].
  rewrite bind_ok. unfold safe_exp_error. simpl.
  assert (Hf : length f = length s) by (unfold f; by rewrite length_map).
  unfold broadcast at 1. rewrite Hf, Nat.eqb_refl. simpl.
  rewrite where_nan_same_length
    by (rewrite length_map, length_zip_with; lia).
  simpl. do 3 f_equal.
  clear Hf Hlen. generalize f. clear. intros f. revert s.
  induction f as [|u f IH]; intros [|v s]; simpl; try done.
  by rewrite IH.
Qed.

Lemma transform_flux_reverse_arrays_witness :
  transform_flux_reverse (fun v => (v + 1)%float)
    (set_use_log_flux (init None None None : ContinuumModel unit unit) true)
    (PyArray [0; 200]%float) (PyArray [2; 2]%float)
  = Ok (PyArray [1; nan]%float, PyArray [2; nan]%float).
Proof.
  destruct (transform_flux_reverse_arrays (fun v => (v + 1)%float)
              (init None None None : ContinuumModel unit unit)
              [0; 200]%float [2; 2]%float eq_refl) as [_ H].
  rewrite H. vm_compute. reflexivity.
Defined.

(** ** [fit] *)

(** The attributes that [init_wave] leaves alone. *)
Lemma init_wave_keeps_config {Finder Trace : Type}
    (self : ContinuumModel Finder Trace) (w : list float) (force omit : bool) :
  trace (init_wave self w force omit).1 = trace self /\
  use_log_flux (init_wave self w force omit).1 = use_log_flux self.
Proof.
  destruct self as [v tr cf mi lg ir im io er em eo wv].
  unfold init_wave; simpl.
  destruct force, wv as [w'|], ir as [ir|], im as [im|], er as [er|],
    em as [em|]; simpl;
    repeat match goal with
      | |- context [ranges_to_mask w ?r None (Scalar 0) false omit] =>
          destruct (ranges_to_mask w r None (Scalar 0) false omit)
            as [[? ?]|]; simpl
      end;
    done.
Qed.

(** X21: [fit] changes the object only by binding a wavelength vector when
    none is cached: with a vector cached it leaves the object as it is,
    whatever the spectrum's own vector, and otherwise as
    [init_wave(spec.wave, force=True)] leaves it; this holds on every way
    out of the call. *)
Theorem fit_binds_wave_once {P E Finder : Type} (log exp : float -> float)
    (self : ContinuumModel Finder (@FitTrace E)) (opts : FitOptions)
    (impl : @ModelImpl P E) (spec : Spectrum) (mask : option (list bool))
    (e : E) :
  (fit_spectrum log exp self opts impl spec mask e).1.1
  = match wave self with
    | Some _ => self
    | None => (init_wave self (spec_wave spec) true false).1
    end.
Proof.
  unfold fit_spectrum.
  destruct (wave self) as [w0|];
    [|destruct (init_wave self (spec_wave spec) true false) as [self1 [[]|ex]]];
    simpl; try done;
    (destruct (use_spec_continuum opts);
     destruct (transform_flux_forward log _ _ _) as [[flux ferr]|]; [|done|..];
     try done;
     destruct (fit_mask opts spec mask) as [m|]; try done;
     destruct (fit_impl impl _ _ _ _) as [[params|] e1]; try done;
     destruct (trace _) as [t|]; try done;
     destruct (eval_model exp _ impl params e1) as [[[w1 cont]|] e2]; done).
Qed.

(** X22: in log-flux mode [fit] raises TypeError on every spectrum that has
    a flux array and an uncertainty array (when the model's continuum is not
    used instead), before the mask is built and before the trace or
    [fit_impl] is called. *)
Theorem fit_log_flux_raises {P E Finder : Type} (log exp : float -> float)
    (self : ContinuumModel Finder (@FitTrace E)) (opts : FitOptions)
    (impl : @ModelImpl P E) (spec : Spectrum) (mask : option (list bool))
    (e : E) (a s : list float) :
  use_log_flux self = true ->
  use_spec_continuum opts = false ->
  spec_flux spec = PyArray a -> spec_flux_err spec = PyArray s ->
  wave self <> None \/ spec_wave spec <> [] ->
  (fit_spectrum log exp self opts impl spec mask e).2 = Raise TypeError /\
  (fit_spectrum log exp self opts impl spec mask e).1.2 = e.
Proof.
  intros Hlog Hcont Hflux Herr Hwave. unfold fit_spectrum.
  assert (Hraise : forall self1 : ContinuumModel Finder (@FitTrace E),
            use_log_flux self1 = true ->
            transform_flux_forward log self1 (PyArray a) (PyArray s)
            = Raise TypeError).
  { intros self1 H1. unfold transform_flux_forward.
    rewrite H1, safe_log_array. reflexivity. }
  rewrite Hcont, Hflux, Herr.
  destruct (wave self) as [w0|] eqn:Ew.
  - by rewrite (Hraise self Hlog).
  - destruct Hwave as [Hwave|Hwave]; [done|].
    destruct (init_wave_total self (spec_wave spec) true false Hwave)
      as [self1 Hinit].
    pose proof (init_wave_keeps_config self (spec_wave spec) true false)
      as [_ Hkeep].
    rewrite Hinit in *. simpl in Hkeep.
    rewrite (Hraise self1); [done|]. congruence.
Qed.

Lemma fit_log_flux_raises_witness :
  let self : ContinuumModel unit (@FitTrace unit) :=
    set_use_log_flux (init None None None) true in
  let impl : @ModelImpl (list float) unit :=
    mkImpl (fun _ _ _ e => (Ok [1%float], e)) (fun _ e => (Ok PyNone, e)) in
  let spec :=
    mkSpectrum [100; 200]%float (PyArray [1; 2]%float) (PyArray [1; 1]%float)
      PyNone (fun _ => None) in
  (fit_spectrum (fun v => v) (fun v => v) self default_options impl spec None tt).2
  = Raise TypeError /\
  (fit_spectrum (fun v => v) (fun v => v) self default_options impl spec None tt).1.2
  = tt.
Proof.
  intros self impl spec.
  apply (fit_log_flux_raises (fun v => v) (fun v => v) self default_options impl
           spec None tt [1; 2]%float [1; 1]%float); try reflexivity.
  right. discriminate.
Defined.

(** ** Constants *)

(** X23: [set_constants] on the dictionary that [get_constants] returns for
    a model of the same name takes over that model's version and nothing
    else; on a dictionary without the version key it raises KeyError; and
    while [name] is not overridden both methods raise
    NotImplementedError. *)
Theorem constants_round_trip {Finder Trace : Type} (n : string)
    (self self' : ContinuumModel Finder Trace) :
  (exists c,
     get_constants (Some n) self = inr c /\
     set_constants (Some n) self' c = inr (set_version self' (version self))) /\
  (forall c : gmap string Z,
     c !! (n +:+ "_version") = None ->
     set_constants (Some n) self' c = inl (KeyError (n +:+ "_version"))) /\
  get_constants None self = inl NotImplementedError /\
  (forall c, set_constants None self' c = inl NotImplementedError).
Proof.
  repeat split.
  - eexists. split; [reflexivity|]. unfold set_constants. simpl.
    by rewrite lookup_singleton_eq.
  - intros c Hc. unfold set_constants. simpl. by rewrite Hc.
Qed.

(** ** The history of the parameters *)

Section History.
Context {V B A R : Type}.
Context (super_reset : B -> B)
        (super_on_fit_rv_start : A -> B -> B)
        (super_on_fit_rv_iter : R -> B -> B).
Implicit Types h : gmap string (list V).
Implicit Types params : list (string * V).

Lemma first_history_lookup params p :
  NoDup params.*1 ->
  (p ∉ params.*1 -> first_history params !! p = None) /\
  (forall v, (p, v) ∈ params -> first_history params !! p = Some [v]).
Proof.
  induction params as [|[q u] rest IH]; intros Hnd; simpl.
  - split; [done|]. by intros v ?%elem_of_nil.
  - apply NoDup_cons in Hnd as [Hq Hnd]. destruct (IH Hnd) as [IH1 IH2].
    split.
    + intros Hp. apply not_elem_of_cons in Hp as [Hne Hp].
      rewrite lookup_insert_ne by done. by apply IH1.
    + intros v [[= -> ->]|Hin]%elem_of_cons.
      * by rewrite lookup_insert_eq.
      * assert (p <> q).
        { intros ->. apply Hq. apply list_elem_of_fmap. by exists (q, v). }
        rewrite lookup_insert_ne by done. by apply IH2.
Qed.

(** One pass of appends over known, distinct keys. *)
Lemma append_params_known params :
  forall h,
    NoDup params.*1 ->
    (forall p, p ∈ params.*1 -> is_Some (h !! p)) ->
    exists h',
      append_params params (Some h) = (Some h', None) /\
      (forall p v l, (p, v) ∈ params -> h !! p = Some l ->
                     h' !! p = Some (l ++ [v])) /\
      (forall p, p ∉ params.*1 -> h' !! p = h !! p).
Proof.
  induction params as [|[q u] rest IH]; intros h Hnd Hdom; simpl.
  - exists h. repeat split; try done. by intros p v l ?%elem_of_nil.
  - apply NoDup_cons in Hnd as [Hq Hnd].
    destruct (Hdom q) as [lq Hlq]; [by left|]. rewrite Hlq.
    destruct (IH (<[q := lq ++ [u]]> h) Hnd) as (h' & Hrun & Hin & Hout).
    { intros p Hp. destruct (decide (p = q)) as [->|Hne].
      - rewrite lookup_insert_eq. eauto.
      - rewrite lookup_insert_ne by done. apply Hdom. by right. }
    exists h'. split; [done|]. split.
    + intros p v l [[= -> ->]|Hpv]%elem_of_cons Hl.
      * rewrite (Hout q Hq), lookup_insert_eq. congruence.
      * assert (p <> q).
        { intros ->. apply Hq. apply list_elem_of_fmap. by exists (q, v). }
        apply (Hin p v l Hpv). by rewrite lookup_insert_ne.
    + intros p Hp. apply not_elem_of_cons in Hp as [Hne Hp].
      rewrite (Hout p Hp). by rewrite lookup_insert_ne.
Qed.

(** The steps of a fit whose parameters all carry the keys [keys]. *)
Lemma on_fit_rv_iters_history (keys : list string)
    (steps : list (R * list (string * V))) :
  forall self h,
    params_iter self = Some h ->
    (forall p, p ∈ keys <-> is_Some (h !! p)) ->
    Forall (fun st => NoDup st.2.*1 /\ forall p, p ∈ st.2.*1 <-> p ∈ keys) steps ->
    exists self' h',
      on_fit_rv_iters super_on_fit_rv_iter self steps = (self', None) /\
      params_iter self' = Some h' /\
      base self' = foldl (fun b st => super_on_fit_rv_iter st.1 b) (base self) steps /\
      (forall p, p ∉ keys -> h' !! p = None) /\
      (forall p l, h !! p = Some l ->
         exists vs, h' !! p = Some (l ++ vs) /\
                    Forall2 (fun st v => (p, v) ∈ st.2) steps vs).
Proof.
  induction steps as [|[rv params] rest IH]; intros self h Hh Hkeys Hall; simpl.
  - exists self, h. repeat split; try done.
    + intros p Hp. destruct (h !! p) eqn:E; [|done].
      exfalso. apply Hp, Hkeys. eauto.
    + intros p l Hl. exists []. rewrite app_nil_r. split; [done|constructor].
  - apply Forall_cons in Hall as [[Hnd Hsame] Hall]. simpl in Hnd, Hsame.
    unfold on_fit_rv_iter. rewrite Hh.
    destruct (append_params_known params h Hnd) as (h1 & Hrun & Hin & Hout).
    { intros p Hp. by apply Hkeys, Hsame. }
    rewrite Hrun.
    set (self1 := mkRVTrace (plot_params_priors self) (plot_params_cov self)
                    (Some h1) (super_on_fit_rv_iter rv (base self))).
    destruct (IH self1 h1) as (self' & h' & Hrest & Hh' & Hb & Hnone & Hhist);
      [done| |done|].
    { intros p. rewrite Hkeys. split; intros [l Hl].
      - destruct (decide (p ∈ params.*1)) as [Hp|Hp].
        + apply list_elem_of_fmap in Hp as ([p' v] & -> & Hpv). simpl in *.
          rewrite (Hin p' v l Hpv Hl). eauto.
        + rewrite (Hout p Hp). eauto.
      - destruct (decide (p ∈ params.*1)) as [Hp|Hp].
        + by apply Hkeys, Hsame.
        + rewrite (Hout p Hp) in Hl. eauto. }
    exists self', h'. repeat split; try done.
    intros p l Hl.
    assert (Hp : p ∈ params.*1) by (apply Hsame, Hkeys; eauto).
    apply list_elem_of_fmap in Hp as ([p' v] & -> & Hpv). simpl in *.
    destruct (Hhist p' (l ++ [v]) (Hin p' v l Hpv Hl)) as (vs & Hvs & Hf2).
    exists (v :: vs). split; [by rewrite Hvs, <- app_assoc|].
    by constructor.
Qed.

End History.

(** X24: after [on_fit_rv_start] on parameters with distinct names and one
    [on_fit_rv_iter] per step, every step carrying those names, no call has
    raised, the base class has been called once per step in order, and the
    history of each parameter is its initial value followed by its value at
    each step, in order; there is no other history. *)
Theorem params_history {V B A R : Type}
    (super_on_fit_rv_start : A -> B -> B) (super_on_fit_rv_iter : R -> B -> B)
    (self : @ModelGridRVFitTrace V B) (args : A)
    (params_0 : list (string * V)) (steps : list (R * list (string * V))) :
  NoDup params_0.*1 ->
  Forall (fun st => NoDup st.2.*1 /\
                    forall p, p ∈ st.2.*1 <-> p ∈ params_0.*1) steps ->
  exists self' h,
    on_fit_rv_iters super_on_fit_rv_iter
      (on_fit_rv_start super_on_fit_rv_start self args params_0) steps
      = (self', None) /\
    params_iter self' = Some h /\
    base self' = foldl (fun b st => super_on_fit_rv_iter st.1 b)
                   (super_on_fit_rv_start args (base self)) steps /\
    (forall p, p ∉ params_0.*1 -> h !! p = None) /\
    (forall p v0, (p, v0) ∈ params_0 ->
       exists vs, h !! p = Some (v0 :: vs) /\
                  Forall2 (fun st v => (p, v) ∈ st.2) steps vs).
Proof.
  intros Hnd Hall.
  destruct (on_fit_rv_iters_history super_on_fit_rv_iter params_0.*1 steps
              (on_fit_rv_start super_on_fit_rv_start self args params_0)
              (first_history params_0))
    as (self' & h & Hrun & Hh & Hb & Hnone & Hhist); [done| |done|].
  { intros p. destruct (first_history_lookup params_0 p Hnd) as [H1 H2].
    split.
    - intros ([p' v] & -> & Hpv)%list_elem_of_fmap. rewrite (H2 v Hpv). eauto.
    - intros [l Hl]. destruct (decide (p ∈ params_0.*1)); [done|].
      rewrite H1 in Hl by done. done. }
  exists self', h. repeat split; try done.
  intros p v0 Hpv.
  destruct (first_history_lookup params_0 p Hnd) as [_ H2].
  destruct (Hhist p [v0] (H2 v0 Hpv)) as (vs & Hvs & Hf2). eauto.
Qed.

Lemma params_history_witness :
  exists (self' : @ModelGridRVFitTrace Z unit) h,
    on_fit_rv_iters (fun (_ : unit) b => b)
      (on_fit_rv_start (fun (_ : unit) b => b)
         (mkRVTrace false false None tt) tt
         [("T_eff", 5000%Z); ("log_g", 4%Z)])
      [(tt, [("log_g", 3%Z); ("T_eff", 5100%Z)])]
      = (self', None) /\
    params_iter self' = Some h /\
    h !! "T_eff" = Some [5000%Z; 5100%Z] /\ h !! "log_g" = Some [4%Z; 3%Z].
Proof.
  destruct (params_history (fun (_ : unit) (b : unit) => b)
              (fun (_ : unit) (b : unit) => b)
              (mkRVTrace false false None tt) tt
              [("T_eff", 5000%Z); ("log_g", 4%Z)]
              [(tt, [("log_g", 3%Z); ("T_eff", 5100%Z)])])
    as (self' & h & Hrun & Hh & _ & _ & _).
  - by apply (bool_decide_unpack _).
  - constructor; [|constructor]. split.
    + by apply (bool_decide_unpack _).
    + intros p. simpl. rewrite !elem_of_cons, !elem_of_nil. tauto.
  - exists self', h. split; [exact Hrun|]. split; [exact Hh|].
    vm_compute in Hrun. injection Hrun as <-. simpl in Hh.
    injection Hh as <-. split; vm_compute; reflexivity.
Defined.

Section HistoryErrors.
Context {V : Type}.
Implicit Types h : gmap string (list V).
Implicit Types params : list (string * V).

Lemma append_params_unknown p v post pre :
  forall h,
    (forall q, q ∈ pre.*1 -> is_Some (h !! q)) ->
    h !! p = None ->
    exists h',
      append_params (pre ++ (p, v) :: post) (Some h)
      = (Some h', Some (KeyError p)).
Proof.
  induction pre as [|[q u] pre IH]; intros h Hpre Hp; simpl.
  - rewrite Hp. eauto.
  - destruct (Hpre q) as [l Hl]; [by left|]. rewrite Hl.
    apply IH.
    + intros q' Hq'. destruct (decide (q' = q)) as [->|Hne].
      * rewrite lookup_insert_eq. eauto.
      * rewrite lookup_insert_ne by done. apply Hpre. by right.
    + rewrite lookup_insert_ne; [done|]. intros ->. congruence.
Qed.

Lemma append_params_extends params :
  forall h, exists h',
    (append_params params (Some h)).1 = Some h' /\
    (forall p, h !! p = None -> h' !! p = None) /\
    (forall p l, h !! p = Some l -> exists ext, h' !! p = Some (l ++ ext)).
Proof.
  induction params as [|[q u] rest IH]; intros h; simpl.
  - exists h. repeat split; try done. intros p l Hl. exists [].
    by rewrite app_nil_r.
  - destruct (h !! q) as [lq|] eqn:Hq.
    + destruct (IH (<[q := lq ++ [u]]> h)) as (h' & Hrun & Hnone & Hext).
      exists h'. split; [done|]. split.
      * intros p Hp. apply Hnone. rewrite lookup_insert_ne; [done|].
        intros ->. congruence.
      * intros p l Hl. destruct (decide (p = q)) as [->|Hne].
        -- destruct (Hext q (lq ++ [u])) as [ext Hx];
             [by rewrite lookup_insert_eq|].
           exists ([u] ++ ext). rewrite Hx. simplify_eq.
           by rewrite <- app_assoc.
        -- apply Hext. by rewrite lookup_insert_ne.
    + exists h. repeat split; try done. intros p l Hl. exists [].
      by rewrite app_nil_r.
Qed.

End HistoryErrors.

(** X25: [on_fit_rv_iter] raises after the base class has been called: a
    TypeError when there is no history (after [reset]) and a parameter to
    record, and a KeyError for the first parameter that
    [on_fit_rv_start] has not seen. *)
Theorem on_fit_rv_iter_errors {V B R : Type}
    (super_reset : B -> B) (super_on_fit_rv_iter : R -> B -> B)
    (self : @ModelGridRVFitTrace V B) (rv : R) :
  (forall params,
     params <> [] ->
     on_fit_rv_iter super_on_fit_rv_iter (reset super_reset self) rv params
     = (mkRVTrace (plot_params_priors self) (plot_params_cov self) None
          (super_on_fit_rv_iter rv (super_reset (base self))),
        Some NoneNotSubscriptable)) /\
  (forall h pre p v post,
     params_iter self = Some h ->
     (forall q, q ∈ pre.*1 -> is_Some (h !! q)) ->
     h !! p = None ->
     exists self',
       on_fit_rv_iter super_on_fit_rv_iter self rv (pre ++ (p, v) :: post)
       = (self', Some (KeyError p)) /\
       base self' = super_on_fit_rv_iter rv (base self)).
Proof.
  split.
  - intros [|[p v] rest] Hne; [done|]. reflexivity.
  - intros h pre p v post Hh Hpre Hp. unfold on_fit_rv_iter. rewrite Hh.
    destruct (append_params_unknown p v post pre h Hpre Hp) as [h' ->].
    eauto.
Qed.

Lemma on_fit_rv_iter_errors_witness :
  exists self' : @ModelGridRVFitTrace Z unit,
    on_fit_rv_iter (fun (_ : unit) b => b)
      (mkRVTrace false false (Some {["T_eff" := [5000%Z]]}) tt) tt
      ([("T_eff", 5100%Z)] ++ ("log_g", 4%Z) :: [])
    = (self', Some (KeyError "log_g")) /\
    base self' = tt.
Proof.
  apply (proj2 (on_fit_rv_iter_errors (fun b : unit => b)
                  (fun (_ : unit) (b : unit) => b)
                  (mkRVTrace false false (Some {["T_eff" := [5000%Z]]}) tt) tt)
           {["T_eff" := [5000%Z]]}).
  - reflexivity.
  - intros q Hq. simpl in Hq. apply list_elem_of_singleton in Hq as ->.
    rewrite lookup_singleton_eq. eauto.
  - vm_compute. reflexivity.
Defined.

(** X26: [on_fit_rv_iter] only ever appends: whether it returns or raises,
    the history has the same parameters afterwards, and what was recorded
    for each is a prefix of what is recorded now. *)
Theorem on_fit_rv_iter_appends {V B R : Type}
    (super_on_fit_rv_iter : R -> B -> B)
    (self : @ModelGridRVFitTrace V B) (rv : R) (params : list (string * V))
    (h : gmap string (list V)) :
  params_iter self = Some h ->
  exists h',
    params_iter (on_fit_rv_iter super_on_fit_rv_iter self rv params).1 = Some h' /\
    (forall p, h !! p = None -> h' !! p = None) /\
    (forall p l, h !! p = Some l -> exists ext, h' !! p = Some (l ++ ext)).
Proof.
  intros Hh. unfold on_fit_rv_iter. rewrite Hh.
  destruct (append_params_extends params h) as (h' & Hrun & Hnone & Hext).
  destruct (append_params params (Some h)) as [d ex]. simpl in *.
  exists h'. done.
Qed.

Lemma on_fit_rv_iter_appends_witness :
  exists h',
    params_iter
      (on_fit_rv_iter (fun (_ : unit) (b : unit) => b)
         (mkRVTrace false false (Some {["T_eff" := [5000%Z]]}) tt) tt
         [("T_eff", 5100%Z); ("log_g", 4%Z)]).1 = Some h' /\
    (forall p, ({["T_eff" := [5000%Z]]} : gmap string (list Z)) !! p = None ->
               h' !! p = None) /\
    (forall p l, ({["T_eff" := [5000%Z]]} : gmap string (list Z)) !! p = Some l ->
                 exists ext, h' !! p = Some (l ++ ext)).
Proof.
  apply (on_fit_rv_iter_appends (fun (_ : unit) (b : unit) => b)
           (mkRVTrace false false (Some {["T_eff" := [5000%Z]]}) tt) tt
           [("T_eff", 5100%Z); ("log_g", 4%Z)]).
  reflexivity.
Defined.
